(** * Ticket-booking simulation: a shallow embedding of [project.py]

    [project.py] drives a discrete-event simulation (SimPy) of a pool of
    [num_servers] identical servers fed by a random arrival process.  This
    file embeds

    - the part of the SimPy runtime the program relies on: the event heap
      ordered by [(time, priority, event id)], [Environment.step] and
      [Environment.run(until=...)], and [Resource] with its [users] list and
      its [put_queue] of pending requests;
    - the two generator functions [handle_request] and
      [user_request_generator], cut at their [yield] points into one handler
      per event that resumes them;
    - [run_simulation] with the three module-level dictionaries.

    Time is kept abstract in the event loop (class [TimeOps]) and instantiated
    twice: with exact rationals [Q], where the order laws are available for
    proofs, and with binary64 floats, which is what Python's [float] is. *)

From Stdlib Require Import ZArith QArith Lqa Lia List Bool String Sorted.
From Stdlib Require Import Floats.PrimFloat.
From stdpp Require Import base gmap.
Import ListNotations.

Set Warnings "-inexact-float".

(** ** Scenario constants *)

Definition PEAK_USERS : Z := 500.
Definition MAX_QUEUE_SIZE : nat := 100.

(** SimPy's two scheduling priorities. *)
Definition URGENT : nat := 0.
Definition NORMAL : nat := 1.

(** Exceptions the run can end with, by Python class. *)
Inductive exn := ValueError | RuntimeError.

Definition exn_name (e : exn) : string :=
  match e with
  | ValueError => "ValueError"
  | RuntimeError => "RuntimeError"
  end.

(** ** Arithmetic on simulated time

    The event loop only adds a delay to the clock, subtracts an arrival time
    from it and compares.  [t_zero] is the initial clock (and the delay of
    [Event.succeed]), [t_one] the abandonment threshold of [handle_request],
    [PROCESSING_TIME] and [SIMULATION_TIME] the module constants. *)
Class TimeOps (T : Type) := {
  t_zero : T;
  t_one : T;
  PROCESSING_TIME : T;
  SIMULATION_TIME : T;
  t_add : T -> T -> T;
  t_sub : T -> T -> T;
  t_ltb : T -> T -> bool;
  t_leb : T -> T -> bool;
  t_eqb : T -> T -> bool
}.

Section EventLoop.
Context {T : Type} `{TimeOps T}.

(** A [Request] event of the resource together with the local variable
    [arrival_time] of the [handle_request] process that waits for it;
    [req_id] is the [request_id] the generator passed to the process. *)
Record request := Req { req_id : nat; req_arrival : T }.

(** The events that ever sit in the heap of this program. *)
Inductive event :=
| InitGenerator                  (* Initialize of user_request_generator *)
| ArrivalTimeout                 (* the Timeout the generator yields *)
| InitRequest (rid : nat)        (* Initialize of one handle_request *)
| RequestGranted (r : request)   (* the Request, once it has succeeded *)
| ServiceTimeout (r : request)   (* env.timeout(PROCESSING_TIME) *)
| ReleaseDone (r : request)      (* the Release created on leaving [with] *)
| ProcessEnded (rid : nat)       (* the Process event of a finished handler *)
| GeneratorFailed                (* the Process event of a crashed generator *)
| UntilEvent.                    (* the stop event of env.run(until=...) *)

(** Heap entries are tuples [(time, priority, eid, event)]. *)
Record entry := Entry {
  e_time : T;
  e_prio : nat;
  e_eid : nat;
  e_event : event
}.

(** Python's tuple comparison on [(time, priority, eid)]. *)
Definition entry_ltb (a b : entry) : bool :=
  if t_eqb (e_time a) (e_time b) then
    if Nat.eqb (e_prio a) (e_prio b) then Nat.ltb (e_eid a) (e_eid b)
    else Nat.ltb (e_prio a) (e_prio b)
  else t_ltb (e_time a) (e_time b).

(** [heappop]: the least entry and the remaining ones. *)
Fixpoint pop_min (q : list entry) : option (entry * list entry) :=
  match q with
  | [] => None
  | e :: q' =>
      match pop_min q' with
      | None => Some (e, [])
      | Some (m, r) =>
          if entry_ltb e m then Some (e, q') else Some (m, e :: r)
      end
  end.

(** The environment, the resource, the generator's locals, the state of the
    random source (number of draws made so far) and the two accumulators the
    run writes to.  [history] is instrumentation: the events processed so
    far with the clock value at which they ran, most recent first. *)
Record world := World {
  now : T;
  queue : list entry;
  next_eid : nat;
  users : list nat;
  put_queue : list request;
  request_id : nat;
  draw_idx : nat;
  response_times : list T;
  dropped : nat;
  history : list (T * event)
}.

Definition set_queue (w : world) (q : list entry) (n : nat) : world :=
  World (now w) q n (users w) (put_queue w) (request_id w) (draw_idx w)
        (response_times w) (dropped w) (history w).

Definition set_resource (w : world) (u : list nat) (pq : list request) : world :=
  World (now w) (queue w) (next_eid w) u pq (request_id w) (draw_idx w)
        (response_times w) (dropped w) (history w).

Definition set_request_id (w : world) (n : nat) : world :=
  World (now w) (queue w) (next_eid w) (users w) (put_queue w) n (draw_idx w)
        (response_times w) (dropped w) (history w).

Definition set_draw_idx (w : world) (n : nat) : world :=
  World (now w) (queue w) (next_eid w) (users w) (put_queue w) (request_id w) n
        (response_times w) (dropped w) (history w).

Definition record_response (w : world) (rt : T) : world :=
  World (now w) (queue w) (next_eid w) (users w) (put_queue w) (request_id w)
        (draw_idx w) (response_times w ++ [rt]) (dropped w) (history w).

Definition count_drop (w : world) : world :=
  World (now w) (queue w) (next_eid w) (users w) (put_queue w) (request_id w)
        (draw_idx w) (response_times w) (S (dropped w)) (history w).

(** [Environment.schedule(event, priority, delay)]. *)
Definition schedule (prio : nat) (delay : T) (ev : event) (w : world) : world :=
  set_queue w
    (queue w ++ [Entry (t_add (now w) delay) prio (next_eid w) ev])
    (S (next_eid w)).

Section Run.
(** [capacity] is the resource's capacity; [draws i] is the value of the
    [i]-th call of [random.expovariate(ARRIVAL_RATE)] after seeding. *)
Variable capacity : Z.
Variable draws : nat -> T.

(** [Resource._trigger_put]: [_do_put] returns [None], so the loop looks
    at the head of [put_queue] only. *)
Definition trigger_put (w : world) : world :=
  match put_queue w with
  | [] => w
  | r :: rest =>
      if (Z.of_nat (length (users w)) <? capacity)%Z then
        schedule NORMAL t_zero (RequestGranted r)
          (set_resource w (users w ++ [req_id r]) rest)
      else w
  end.

(** [list.remove]: the first occurrence; [_do_get] ignores a miss. *)
Fixpoint remove_first (x : nat) (l : list nat) : list nat :=
  match l with
  | [] => []
  | y :: l' => if Nat.eqb x y then l' else y :: remove_first x l'
  end.

(** [Resource.release(req)]: frees the slot at once and schedules the
    [Release] event, whose callback is [_trigger_put]. *)
Definition release (r : request) (w : world) : world :=
  schedule NORMAL t_zero (ReleaseDone r)
    (set_resource w (remove_first (req_id r) (users w)) (put_queue w)).

(** The body of [while True] in [user_request_generator] up to its
    [yield]: one draw, one [Timeout].  [Timeout] raises [ValueError] on a
    negative delay, which ends the generator process with a failure. *)
Definition generator_loop (w : world) : world :=
  let gap := draws (draw_idx w) in
  let w1 := set_draw_idx w (S (draw_idx w)) in
  if t_ltb gap t_zero then schedule NORMAL t_zero GeneratorFailed w1
  else schedule NORMAL gap ArrivalTimeout w1.

(** The generator resumed by its [Timeout]. *)
Definition on_arrival (w : world) : world :=
  if Nat.leb MAX_QUEUE_SIZE (length (put_queue w)) then
    generator_loop (count_drop w)
  else
    let w1 := schedule URGENT t_zero (InitRequest (request_id w)) w in
    generator_loop (set_request_id w1 (S (request_id w1))).

(** [handle_request] from its start to [yield req]. *)
Definition on_init_request (rid : nat) (w : world) : world :=
  let r := Req rid (now w) in
  trigger_put (set_resource w (users w) (put_queue w ++ [r])).

(** [handle_request] resumed by its granted [Request]. *)
Definition on_granted (r : request) (w : world) : world :=
  if t_ltb t_one (t_sub (now w) (req_arrival r)) then
    schedule NORMAL t_zero (ProcessEnded (req_id r))
      (release r (count_drop w))
  else
    schedule NORMAL PROCESSING_TIME (ServiceTimeout r) w.

(** [handle_request] resumed by its service [Timeout]. *)
Definition on_service_done (r : request) (w : world) : world :=
  let w1 := release r w in
  let w2 := record_response w1 (t_sub (now w1) (req_arrival r)) in
  schedule NORMAL t_zero (ProcessEnded (req_id r)) w2.

(** The callbacks of each event. *)
Definition handle (ev : event) (w : world) : world :=
  match ev with
  | InitGenerator => generator_loop (set_request_id w 0)
  | ArrivalTimeout => on_arrival w
  | InitRequest rid => on_init_request rid w
  | RequestGranted r => on_granted r w
  | ServiceTimeout r => on_service_done r w
  | ReleaseDone _ => trigger_put w
  | ProcessEnded _ => w
  | GeneratorFailed => w
  | UntilEvent => w
  end.

Inductive step_result :=
| Continue (w : world)
| Stopped (w : world)
| Raised (e : exn) (w : world).

(** The clock moves to the popped entry's time before its callbacks run. *)
Definition advance (e : entry) (rest : list entry) (w : world) : world :=
  World (e_time e) rest (next_eid w) (users w) (put_queue w) (request_id w)
        (draw_idx w) (response_times w) (dropped w)
        ((e_time e, e_event e) :: history w).

(** [Environment.step], with the two ways it can raise here:
    [StopSimulation] from the until event and the re-raised exception of
    a failed process.  An empty heap cannot be left normally while the
    until event is pending. *)
Definition step (w : world) : step_result :=
  match pop_min (queue w) with
  | None => Raised RuntimeError w
  | Some (e, rest) =>
      let w1 := advance e rest w in
      match e_event e with
      | UntilEvent => Stopped w1
      | GeneratorFailed => Raised ValueError w1
      | ev => Continue (handle ev w1)
      end
  end.

Definition result_world (r : step_result) : world :=
  match r with
  | Continue w | Stopped w | Raised _ w => w
  end.

Inductive run_result :=
| OutOfFuel
| Done (w : world)
| Failed (e : exn) (w : world).

(** The [while True: self.step()] of [Environment.run]. *)
Fixpoint run_loop (fuel : nat) (w : world) : run_result :=
  match fuel with
  | O => OutOfFuel
  | S fuel' =>
      match step w with
      | Continue w' => run_loop fuel' w'
      | Stopped w' => Done w'
      | Raised e w' => Failed e w'
      end
  end.

(** A fresh [Environment()], with the accumulators of this run. *)
Definition fresh_world (rts : list T) (d : nat) : world :=
  World t_zero [] 0 [] [] 0 0 rts d [].

(** [env.process(user_request_generator(...))] followed by
    [env.run(until=SIMULATION_TIME)]. *)
Definition start_world (rts : list T) (d : nat) : world :=
  schedule URGENT t_zero InitGenerator (fresh_world rts d).

Definition env_run (fuel : nat) (w : world) : run_result :=
  if t_leb SIMULATION_TIME (now w) then Failed ValueError w
  else run_loop fuel
         (schedule URGENT (t_sub SIMULATION_TIME (now w)) UntilEvent w).


(** The world after at most [k] steps of the loop; it stays where the loop
    stops or raises. *)
Fixpoint run_prefix (k : nat) (w : world) : world :=
  match k with
  | O => w
  | S k' =>
      match step w with
      | Continue w' => run_prefix k' w'
      | Stopped w' => w'
      | Raised _ w' => w'
      end
  end.

End Run.

(** The world [env.run] starts its loop from in [run_simulation]. *)
Definition initial_world (rts : list T) (d : nat) : world :=
  schedule URGENT (t_sub SIMULATION_TIME t_zero) UntilEvent (start_world rts d).

(** *** The shape of recorded response times

    A service timeout is scheduled [PROCESSING_TIME] after a grant time [g]
    at which the wait did not exceed the threshold; a recorded response time
    is such a timeout's time minus an arrival time [a]. *)
Definition service_form (t : T) (ev : event) : Prop :=
  match ev with
  | ServiceTimeout r =>
      exists g, t = t_add g PROCESSING_TIME /\
                t_ltb t_one (t_sub g (req_arrival r)) = false
  | _ => True
  end.

Definition served_form (rt : T) : Prop :=
  exists g a, rt = t_sub (t_add g PROCESSING_TIME) a /\
              t_ltb t_one (t_sub g a) = false.

Definition well_formed (w : world) : Prop :=
  Forall (fun e => service_form (e_time e) (e_event e)) (queue w) /\
  Forall served_form (response_times w).

(** *** Counting

    [total f q] adds [f] over the events of the heap [q]. *)
Fixpoint total (f : event -> nat) (q : list entry) : nat :=
  match q with
  | [] => 0
  | e :: q' => f (e_event e) + total f q'
  end.

Definition is_arrival (ev : event) : nat :=
  match ev with ArrivalTimeout => 1 | _ => 0 end.

(** An admitted request that is neither served nor dropped is at one of
    four places: its process has not started yet, it waits in [put_queue],
    its grant is on the heap, or its service timeout is. *)
Definition is_in_progress (ev : event) : nat :=
  match ev with
  | InitRequest _ | RequestGranted _ | ServiceTimeout _ => 1
  | _ => 0
  end.

Definition in_flight (w : world) : nat :=
  total is_in_progress (queue w) + length (put_queue w).

(** Requests that were dropped or served. *)
Definition settled (w : world) : nat :=
  (dropped w + length (response_times w))%nat.

(** Number of arrivals the generator has handled so far. *)
Definition arrivals (w : world) : nat :=
  length (List.filter (fun p => Nat.eqb (is_arrival (snd p)) 1) (history w)).
End EventLoop.

Arguments request T : clear implicits.
Arguments event T : clear implicits.
Arguments entry T : clear implicits.
Arguments world T : clear implicits.
Arguments step_result T : clear implicits.
Arguments run_result T : clear implicits.

(** ** Exact rational time *)

#[global] Instance QTime : TimeOps Q := {|
  t_zero := 0%Q;
  t_one := 1%Q;
  PROCESSING_TIME := (1 # 5)%Q;
  SIMULATION_TIME := 10%Q;
  t_add := Qplus;
  t_sub := Qminus;
  t_ltb := fun a b => negb (Qle_bool b a);
  t_leb := Qle_bool;
  t_eqb := Qeq_bool
|}.

(** ** Binary64 time, as in CPython *)

#[global] Instance FloatTime : TimeOps float := {|
  t_zero := 0%float;
  t_one := 1%float;
  PROCESSING_TIME := 0.2%float;
  SIMULATION_TIME := 10%float;
  t_add := PrimFloat.add;
  t_sub := PrimFloat.sub;
  t_ltb := PrimFloat.ltb;
  t_leb := PrimFloat.leb;
  t_eqb := PrimFloat.eqb
|}.


(** ** [run_simulation], over rational time *)

Open Scope Q_scope.

Definition ARRIVAL_RATE : Q := inject_Z PEAK_USERS / SIMULATION_TIME.

(** [sum(xs)]: a left fold from [0]. *)
Definition Qsum (xs : list Q) : Q := fold_left Qplus xs 0.

(** [statistics.mean(xs)] for a non-empty [xs]. *)
Definition mean (xs : list Q) : Q := Qsum xs / inject_Z (Z.of_nat (length xs)).

(** The first component of the result: a mean, or [float('inf')]. *)
Inductive average := Infinity | Finite (q : Q).

Definition avg_response_time (rts : list Q) : average :=
  match rts with
  | [] => Infinity
  | _ => Finite (mean rts)
  end.

Definition server_utilization (rts : list Q) (num_servers : Z) : Q :=
  (Qsum rts / (inject_Z num_servers * SIMULATION_TIME)) * 100.

(** The three module-level dictionaries, keyed by server count. *)
Record globals := Globals {
  g_response_times : gmap Z (list Q);
  g_utilization_rates : gmap Z Q;
  g_dropped_requests : gmap Z nat
}.

Inductive outcome :=
| NoResult                                         (* the loop needs more fuel *)
| Returns (r : average * Q * nat) (g : globals)
| Raises (e : exn) (g : globals).

(** What the processes of a run have written under key [n]. *)
Definition store_run (n : Z) (w : world Q) (g : globals) : globals :=
  Globals (<[n := response_times w]> (g_response_times g))
          (g_utilization_rates g)
          (<[n := dropped w]> (g_dropped_requests g)).

(** [run_simulation(num_servers)].  The processes of the run reach the
    accumulators only through the key [num_servers], which the first two
    statements (re)bind; the event loop therefore carries the two entries in
    its world and they are stored back under that key.  [Resource] refuses a
    capacity that is not positive with [ValueError]. *)
Definition run_simulation (fuel : nat) (draws : nat -> Q) (g : globals)
    (num_servers : Z) : outcome :=
  let g1 := Globals (<[num_servers := []]> (g_response_times g))
                    (g_utilization_rates g)
                    (<[num_servers := 0%nat]> (g_dropped_requests g)) in
  if (num_servers <=? 0)%Z then Raises ValueError g1
  else
    let w0 := start_world (g_response_times g1 !!! num_servers)
                          (g_dropped_requests g1 !!! num_servers) in
    match env_run num_servers draws fuel w0 with
    | OutOfFuel => NoResult
    | Failed e w => Raises e (store_run num_servers w g1)
    | Done w =>
        let g2 := store_run num_servers w g1 in
        let rts := g_response_times g2 !!! num_servers in
        let avg := avg_response_time rts in
        let util := server_utilization rts num_servers in
        let g3 := Globals (g_response_times g2)
                          (<[num_servers := util]> (g_utilization_rates g2))
                          (g_dropped_requests g2) in
        Returns (avg, util, g_dropped_requests g2 !!! num_servers) g3
    end.

(** Simulated time of the [j]-th arrival: the clock value the generator's
    [j]-th timeout is scheduled for. *)
Fixpoint arrival_at (draws : nat -> Q) (j : nat) : Q :=
  match j with
  | O => draws O
  | S j' => arrival_at draws j' + draws j
  end.

(** Sample random streams used in the examples below. *)
Definition late_arrival (i : nat) : Q :=
  match i with O => 99 # 10 | _ => 1 end.

Definition burst_then_steady (i : nat) : Q :=
  if Nat.ltb i 6 then 0 else if Nat.ltb i 16 then 1 # 5 else 100.

Definition early_arrival (i : nat) : Q :=
  match i with O => 1 | _ => 100 end.

Definition float_arrival (i : nat) : float :=
  match i with O => 0.7%float | _ => 100%float end.

(** ** Predicates used in the statements about rational time *)

(** The order of heap entries, as a proposition. *)
Definition entry_lt (a b : entry Q) : Prop :=
  e_time a < e_time b \/
  (e_time a == e_time b /\
   ((e_prio a < e_prio b)%nat \/
    (e_prio a = e_prio b /\ (e_eid a < e_eid b)%nat))).

(** The interval of the response times a run may record. *)
Definition in_bounds (rt : Q) : Prop :=
  PROCESSING_TIME <= rt /\ rt <= 1 + PROCESSING_TIME.

(** What is known about an event that runs at clock value [t]: a grant does
    not precede the arrival of its request, and a service timeout fires
    within the bounds after it. *)
Definition event_ok (t : Q) (ev : event Q) : Prop :=
  match ev with
  | RequestGranted r => req_arrival r <= t
  | ServiceTimeout r => in_bounds (t - req_arrival r)
  | _ => True
  end.

Definition entry_ok (t0 : Q) (e : entry Q) : Prop :=
  t0 <= e_time e /\ event_ok (e_time e) (e_event e).

(** [chrono t h]: the clock values logged in [h] (most recent first) never
    decrease along the run and are at most [t]. *)
Fixpoint chrono (t : Q) (h : list (Q * event Q)) : Prop :=
  match h with
  | [] => True
  | (t', _) :: h' => t' <= t /\ chrono t' h'
  end.

Definition timely (w : world Q) : Prop :=
  Forall (entry_ok (now w)) (queue w) /\
  Forall (fun r => req_arrival r <= now w) (put_queue w) /\
  Forall in_bounds (response_times w) /\
  chrono (now w) (history w).

(** The stop event of the run is still on the heap. *)
Definition until_pending (w : world Q) : Prop :=
  exists u, In u (queue w) /\ e_event u = UntilEvent /\
            e_prio u = URGENT /\ e_time u == SIMULATION_TIME.

(** ** Measure used for termination

    With [SIMULATION_TIME <= arrival_at draws K], at most [K] arrivals are
    handled.  Each event on the heap is charged with the events it can still
    cause: a request goes through at most five events, an arrival through
    its request and the next arrival. *)

Definition is_gen_token (ev : event Q) : nat :=
  match ev with
  | InitGenerator | ArrivalTimeout => 1
  | _ => 0
  end.

Definition event_weight (K : nat) (ev : event Q) : nat :=
  match ev with
  | InitGenerator => 7 * K + 2
  | ArrivalTimeout => 0
  | InitRequest _ => 5
  | RequestGranted _ => 4
  | ServiceTimeout _ => 3
  | ReleaseDone _ => 1
  | ProcessEnded _ => 1
  | GeneratorFailed => 1
  | UntilEvent => 1
  end.

Definition potential (K : nat) (w : world Q) : nat :=
  (total (event_weight K) (queue w) + 4 * length (put_queue w)
   + total is_arrival (queue w) * (7 * (K + 1 - draw_idx w)))%nat.

(** What is known about the generator's own events while [d] draws have
    been made. *)
Definition gen_entry_ok (draws : nat -> Q) (K d : nat) (e : entry Q) : Prop :=
  match e_event e with
  | InitGenerator => d = 0%nat /\ e_time e == 0
  | ArrivalTimeout =>
      e_prio e = NORMAL /\ (1 <= d <= K + 1)%nat /\
      e_time e == arrival_at draws (d - 1)
  | GeneratorFailed => False
  | _ => True
  end.

Definition gen_inv (draws : nat -> Q) (K : nat) (w : world Q) : Prop :=
  until_pending w /\
  (total is_gen_token (queue w) <= 1)%nat /\
  Forall (gen_entry_ok draws K (draw_idx w)) (queue w).

(** Heap entries that belong to request processes (or are the stop event). *)
Definition plain (e : entry Q) : Prop :=
  match e_event e with
  | InitGenerator | ArrivalTimeout | GeneratorFailed => False
  | _ => True
  end.

Definition empty_globals : globals := Globals ∅ ∅ ∅.

(** ** Further notions on the heap *)

Section HeapViews.
Context {T : Type} `{TimeOps T}.

(** The request that holds a server slot on behalf of an event: a grant not
    yet seen by its process, or a service in progress. *)
Definition holder_of (ev : event T) : list nat :=
  match ev with
  | RequestGranted r | ServiceTimeout r => [req_id r]
  | _ => []
  end.

Fixpoint holder_ids (q : list (entry T)) : list nat :=
  match q with
  | [] => []
  | e :: q' => holder_of (e_event e) ++ holder_ids q'
  end.

Definition is_init_request (ev : event T) : nat :=
  match ev with InitRequest _ => 1 | _ => 0 end.

Definition is_init_generator (ev : event T) : nat :=
  match ev with InitGenerator => 1 | _ => 0 end.

Definition is_until (ev : event T) : nat :=
  match ev with UntilEvent => 1 | _ => 0 end.

(** [slots_ok capacity held w]: the servers in use are exactly the requests
    in [held] and those with a grant or a service timeout on the heap, and
    there are at most [capacity] of them. *)
Definition slots_ok (capacity : Z) (held : list nat) (w : world T) : Prop :=
  Permutation (users w) (held ++ holder_ids (queue w)) /\
  (Z.of_nat (length (users w)) <= capacity)%Z.

End HeapViews.

(** ** Invariants of the waiting line and of the generator, rational time *)

(** At most one event of the generator is pending; no process waits to
    start before the generator has started; a process that waits to start
    comes before the generator's next timeout in the heap order; and the
    waiting line, with the processes about to join it, stays within
    [MAX_QUEUE_SIZE]. *)
Definition line_inv (w : world Q) : Prop :=
  (total is_gen_token (queue w) <= 1)%nat /\
  (total is_init_generator (queue w) = 1%nat ->
   total is_init_request (queue w) = 0%nat) /\
  (forall i a, In i (queue w) -> In a (queue w) ->
     is_init_request (e_event i) = 1%nat -> e_event a = ArrivalTimeout ->
     entry_lt i a) /\
  (length (put_queue w) + total is_init_request (queue w)
   <= MAX_QUEUE_SIZE)%nat.

(** While the [K]-th arrival is at or beyond the horizon: at most [K + 1]
    draws are made, the generator has started fewer processes than it has
    made draws, and every draw but the pending one is an arrival handled. *)
Definition draws_inv (K : nat) (w : world Q) : Prop :=
  (draw_idx w <= K + 1)%nat /\
  (request_id w <= draw_idx w - 1)%nat /\
  (draw_idx w + total is_init_generator (queue w) = arrivals w + 1)%nat /\
  (arrivals w <= K)%nat.

(** A run in which no request ever waits: grants fire at the arrival time,
    service timeouts [PROCESSING_TIME] later, nothing is dropped. *)
Definition unc_entry_ok (e : entry Q) : Prop :=
  match e_event e with
  | RequestGranted r => e_time e == req_arrival r
  | ServiceTimeout r => e_time e == req_arrival r + PROCESSING_TIME
  | _ => True
  end.

Definition uncontended (w : world Q) : Prop :=
  put_queue w = [] /\ dropped w = 0%nat /\
  Forall (fun rt => rt == PROCESSING_TIME) (response_times w) /\
  Forall unc_entry_ok (queue w) /\
  (length (users w) + total is_init_request (queue w) <= request_id w)%nat.

(** ** Order of service, rational time *)

(** The ids of the requests that hold a server, in the order of [users],
    followed by those of the waiting line. *)
Definition in_service_order (w : world Q) : list nat :=
  users w ++ map req_id (put_queue w).

(** At most one process waits to start, and its id is above those of the
    requests at the resource and below the generator's counter; nobody is at
    the resource before the generator has started; the requests at the
    resource are in increasing order of id. *)
Definition order_inv (w : world Q) : Prop :=
  (total is_init_request (queue w) <= 1)%nat /\
  (1 <= total is_init_generator (queue w) ->
   users w = [] /\ put_queue w = [])%nat /\
  StronglySorted lt (in_service_order w) /\
  Forall (fun i => (i < request_id w)%nat) (in_service_order w) /\
  (forall e rid, In e (queue w) -> e_event e = InitRequest rid ->
     (rid < request_id w)%nat /\
     Forall (fun i => (i < rid)%nat) (in_service_order w)).

(** ** The verdicts of the script

    The module's top level compares the returned average with the 500 ms
    target twice: [avg_time > 0.5] chooses the first observation it prints,
    [avg_time <= 0.5] the answer to its second question.  [float('inf')] is
    above any number. *)
Definition above_target (avg : average) : bool :=
  match avg with
  | Infinity => true
  | Finite q => negb (Qle_bool q (1 # 2))
  end.

Definition meets_target (avg : average) : bool :=
  match avg with
  | Infinity => false
  | Finite q => Qle_bool q (1 # 2)
  end.

(** * Properties *)

(** ** Facts that hold for any arithmetic on time *)

Section Generic.
Context {T : Type} `{TimeOps T}.
Variable capacity : Z.
Variable draws : nat -> T.

Abbreviation world := (world T).
Abbreviation entry := (entry T).
Abbreviation event := (event T).

Lemma total_app (f : event -> nat) (q1 q2 : list entry) :
  total f (q1 ++ q2) = (total f q1 + total f q2)%nat.
Proof.
  induction q1 as [|e q1 IH]; simpl; [reflexivity|].
  rewrite IH. lia.
Qed.

Lemma pop_min_total (f : event -> nat) (q : list entry) m r :
  pop_min q = Some (m, r) ->
  total f q = (f (e_event m) + total f r)%nat.
Proof.
  revert m r. induction q as [|e q IH]; intros m r; simpl; [discriminate|].
  destruct (pop_min q) as [[m' r']|] eqn:E.
  - specialize (IH _ _ eq_refl).
    destruct (entry_ltb e m'); intros [= <- <-]; simpl; lia.
  - intros [= <- <-]. destruct q; simpl in *; [lia|].
    destruct (pop_min q) as [[? ?]|]; [destruct (entry_ltb _ _)|]; discriminate.
Qed.

Lemma pop_min_In (q : list entry) m r :
  pop_min q = Some (m, r) ->
  forall x, In x q <-> x = m \/ In x r.
Proof.
  revert m r. induction q as [|e q IH]; intros m r; simpl; [discriminate|].
  destruct (pop_min q) as [[m' r']|] eqn:E.
  - specialize (IH _ _ eq_refl).
    destruct (entry_ltb e m'); intros [= <- <-] x; simpl.
    + intuition.
    + rewrite IH. intuition.
  - intros [= <- <-] x. destruct q; simpl in *; [intuition|].
    destruct (pop_min q) as [[? ?]|]; [destruct (entry_ltb _ _)|]; discriminate.
Qed.

Lemma pop_min_None (q : list entry) : pop_min q = None -> q = [].
Proof.
  destruct q as [|e q]; simpl; [reflexivity|].
  destruct (pop_min q) as [[? ?]|]; [destruct (entry_ltb _ _)|]; discriminate.
Qed.

(** What [step] does, by the event it pops. *)
Lemma step_cases (w : world) :
  (queue w = [] /\ step capacity draws w = Raised RuntimeError w) \/
  exists e rest,
    pop_min (queue w) = Some (e, rest) /\
    ((e_event e = UntilEvent /\
      step capacity draws w = Stopped (advance e rest w)) \/
     (e_event e = GeneratorFailed /\
      step capacity draws w = Raised ValueError (advance e rest w)) \/
     (e_event e <> UntilEvent /\ e_event e <> GeneratorFailed /\
      step capacity draws w =
        Continue (handle capacity draws (e_event e) (advance e rest w)))).
Proof.
  unfold step. destruct (pop_min (queue w)) as [[e rest]|] eqn:E.
  - right. exists e, rest. split; [reflexivity|].
    destruct (e_event e) eqn:Ev; simpl;
      try (right; right; repeat split; (discriminate || reflexivity));
      [right; left | left]; split; reflexivity.
  - left. split; [apply pop_min_None, E | reflexivity].
Qed.

(** *** Accounting of arrivals *)

Lemma in_flight_schedule prio d ev (w : world) :
  in_flight (schedule prio d ev w) = (in_flight w + is_in_progress ev)%nat.
Proof.
  unfold in_flight, schedule; simpl. rewrite total_app; simpl. lia.
Qed.

Lemma trigger_put_account (w : world) :
  in_flight (trigger_put capacity w) = in_flight w /\
  settled (trigger_put capacity w) = settled w /\
  history (trigger_put capacity w) = history w.
Proof.
  unfold trigger_put. destruct (put_queue w) as [|r rest] eqn:E; [auto|].
  destruct (Z.of_nat (length (users w)) <? capacity)%Z; [|auto].
  rewrite in_flight_schedule. unfold in_flight, settled; simpl.
  rewrite E; simpl. repeat split; lia.
Qed.

Lemma generator_loop_account (w : world) :
  in_flight (generator_loop draws w) = in_flight w /\
  settled (generator_loop draws w) = settled w /\
  history (generator_loop draws w) = history w.
Proof.
  unfold generator_loop. destruct (t_ltb _ _);
    rewrite in_flight_schedule; unfold in_flight, settled; simpl;
    repeat split; lia.
Qed.

(** One handler: what it settles or puts in flight is what it took off the
    heap, plus one for an arrival. *)
Lemma handle_account (ev : event) (w : world) :
  (in_flight (handle capacity draws ev w) + settled (handle capacity draws ev w)
   = in_flight w + settled w + is_in_progress ev + is_arrival ev)%nat /\
  history (handle capacity draws ev w) = history w.
Proof.
  destruct ev; simpl.
  - destruct (generator_loop_account (set_request_id w 0)) as (-> & -> & ->).
    unfold in_flight, settled; simpl. split; [lia|reflexivity].
  - unfold on_arrival. destruct (Nat.leb _ _).
    + destruct (generator_loop_account (count_drop w)) as (-> & -> & ->).
      unfold in_flight, settled; simpl. split; [lia|reflexivity].
    + match goal with |- context [generator_loop draws ?x] =>
        destruct (generator_loop_account x) as (-> & -> & ->) end.
      unfold in_flight, settled; simpl. rewrite total_app; simpl.
      split; [lia|reflexivity].
  - unfold on_init_request.
    match goal with |- context [trigger_put capacity ?x] =>
      destruct (trigger_put_account x) as (-> & -> & ->) end.
    unfold in_flight, settled; simpl. rewrite length_app; simpl.
    split; [lia|reflexivity].
  - unfold on_granted. destruct (t_ltb _ _).
    + unfold release. rewrite !in_flight_schedule.
      unfold in_flight, settled; simpl. split; [lia|reflexivity].
    + rewrite in_flight_schedule.
      unfold in_flight, settled; simpl. split; [lia|reflexivity].
  - unfold on_service_done, release.
    unfold in_flight, settled, schedule; simpl.
    rewrite !total_app, length_app; simpl. split; [lia|reflexivity].
  - destruct (trigger_put_account w) as (-> & -> & ->).
    split; [lia|reflexivity].
  - split; [lia|reflexivity].
  - split; [lia|reflexivity].
  - split; [lia|reflexivity].
Qed.


Lemma is_arrival_filter (ev : event) (t : T) (h : list (T * event)) :
  length (List.filter (fun p => Nat.eqb (is_arrival (snd p)) 1) ((t, ev) :: h))
  = (is_arrival ev
     + length (List.filter (fun p => Nat.eqb (is_arrival (snd p)) 1) h))%nat.
Proof. destruct ev; reflexivity. Qed.

Lemma advance_account (q : list entry) e rest (w : world) :
  queue w = q -> pop_min q = Some (e, rest) ->
  (in_flight (advance e rest w) + is_in_progress (e_event e))%nat = in_flight w /\
  settled (advance e rest w) = settled w /\
  arrivals (advance e rest w) = (arrivals w + is_arrival (e_event e))%nat.
Proof.
  intros <- Hpop. unfold in_flight, settled, arrivals, advance.
  cbn [history queue dropped response_times put_queue].
  rewrite (pop_min_total is_in_progress _ _ _ Hpop).
  rewrite is_arrival_filter. repeat split; lia.
Qed.

(** Over one step, every arrival handled is either settled or still in
    flight. *)
Lemma step_balanced (w : world) :
  let after :=
    match step capacity draws w with
    | Continue w' | Stopped w' | Raised _ w' => w'
    end in
  (in_flight after + settled after + arrivals w
   = in_flight w + settled w + arrivals after)%nat.
Proof.
  destruct (step_cases w) as [[_ ->] | (e & rest & Hpop & Hcase)]; [simpl; lia|].
  destruct (advance_account _ _ _ w eq_refl Hpop) as (Hf & Hs & Ha).
  destruct Hcase as [[Ev ->] | [[Ev ->] | (_ & _ & ->)]]; simpl.
  - rewrite Ev in *; simpl in *. lia.
  - rewrite Ev in *; simpl in *. lia.
  - destruct (handle_account (e_event e) (advance e rest w)) as [Hh Hhist].
    unfold arrivals at 2. rewrite Hhist. fold (arrivals (advance e rest w)).
    lia.
Qed.

Lemma run_loop_balanced (fuel : nat) (w w' : world) :
  run_loop capacity draws fuel w = Done w' ->
  (in_flight w' + settled w' + arrivals w
   = in_flight w + settled w + arrivals w')%nat.
Proof.
  revert w. induction fuel as [|fuel IH]; intros w; simpl; [discriminate|].
  pose proof (step_balanced w) as Hs.
  destruct (step capacity draws w) as [w1|w1|e w1]; simpl in Hs.
  - intros Hrun. specialize (IH _ Hrun). lia.
  - intros [= <-]. exact Hs.
  - discriminate.
Qed.

(** C2 (as amended): when the run reaches its horizon, the arrivals handled
    so far are exactly the dropped requests, the served ones and those still
    in the system (process not yet started, waiting for a server, or holding
    one). *)
Theorem arrivals_accounted (fuel : nat) (w : world) :
  env_run capacity draws fuel (start_world [] 0) = Done w ->
  (dropped w + length (response_times w) + in_flight w)%nat = arrivals w.
Proof.
  unfold env_run. destruct (t_leb _ _); [discriminate|].
  intros Hrun. apply run_loop_balanced in Hrun.
  rewrite in_flight_schedule in Hrun.
  unfold settled, arrivals, in_flight in *; simpl in *. lia.
Qed.

(** C3: the two resumptions of [handle_request].  When its granted request
    is processed at clock value [e_time e], a wait above the threshold counts
    one drop, frees the slot in the same step and schedules no service
    timeout; otherwise the only effect is a timeout [PROCESSING_TIME] later,
    the slot staying taken.  When that timeout is processed, the slot is
    freed and the clock minus the arrival time is appended to the recorded
    response times. *)
Theorem handle_request_transitions (w : world) e rest (r : request T) :
  pop_min (queue w) = Some (e, rest) ->
  (e_event e = RequestGranted r ->
   exists w', step capacity draws w = Continue w' /\ now w' = e_time e /\
     put_queue w' = put_queue w /\
     if t_ltb t_one (t_sub (e_time e) (req_arrival r)) then
       dropped w' = S (dropped w) /\
       users w' = remove_first (req_id r) (users w) /\
       response_times w' = response_times w /\
       queue w' = rest ++
         [Entry (t_add (e_time e) t_zero) NORMAL (next_eid w) (ReleaseDone r);
          Entry (t_add (e_time e) t_zero) NORMAL (S (next_eid w))
                (ProcessEnded (req_id r))]
     else
       dropped w' = dropped w /\
       users w' = users w /\
       response_times w' = response_times w /\
       queue w' = rest ++
         [Entry (t_add (e_time e) PROCESSING_TIME) NORMAL (next_eid w)
                (ServiceTimeout r)]) /\
  (e_event e = ServiceTimeout r ->
   exists w', step capacity draws w = Continue w' /\ now w' = e_time e /\
     put_queue w' = put_queue w /\
     dropped w' = dropped w /\
     users w' = remove_first (req_id r) (users w) /\
     response_times w' =
       response_times w ++ [t_sub (e_time e) (req_arrival r)] /\
     queue w' = rest ++
       [Entry (t_add (e_time e) t_zero) NORMAL (next_eid w) (ReleaseDone r);
        Entry (t_add (e_time e) t_zero) NORMAL (S (next_eid w))
              (ProcessEnded (req_id r))]).
Proof.
  intros Hpop. split; intros Ev; unfold step; rewrite Hpop, Ev; simpl;
    eexists; (split; [reflexivity|]).
  - unfold on_granted; simpl.
    destruct (t_ltb t_one (t_sub (e_time e) (req_arrival r))); simpl;
      rewrite <- ?app_assoc; simpl; repeat split.
  - simpl. rewrite <- ?app_assoc; simpl. repeat split.
Qed.

Lemma on_arrival_users_irrelevant (w : world) (u : list nat) :
  dropped (on_arrival draws (set_resource w u (put_queue w)))
  = dropped (on_arrival draws w).
Proof.
  unfold on_arrival, generator_loop. cbn [put_queue set_resource].
  destruct (Nat.leb MAX_QUEUE_SIZE (length (put_queue w)));
    cbn [draw_idx set_draw_idx count_drop set_request_id schedule set_queue
         set_resource]; destruct (t_ltb _ _); reflexivity.
Qed.

Lemma on_init_request_enqueues (rid : nat) (w0 : world) :
  exists w1, on_init_request capacity rid w0 = trigger_put capacity w1 /\
             put_queue w1 = put_queue w0 ++ [Req rid (now w0)] /\
             users w1 = users w0.
Proof. eexists. split; [reflexivity|]. split; reflexivity. Qed.

Lemma arrival_step (w : world) e rest :
  pop_min (queue w) = Some (e, rest) ->
  e_event e = ArrivalTimeout ->
  exists w' next,
    step capacity draws w = Continue w' /\
    (e_event next = ArrivalTimeout \/ e_event next = GeneratorFailed) /\
    (dropped w' = S (dropped w) <-> (MAX_QUEUE_SIZE <= length (put_queue w))%nat) /\
    (if Nat.leb MAX_QUEUE_SIZE (length (put_queue w)) then
       dropped w' = S (dropped w) /\ request_id w' = request_id w /\
       queue w' = rest ++ [next]
     else
       dropped w' = dropped w /\ request_id w' = S (request_id w) /\
       queue w' = rest ++
         [Entry (t_add (e_time e) t_zero) URGENT (next_eid w)
                (InitRequest (request_id w)); next]) /\
    put_queue w' = put_queue w.
Proof.
  intros Hpop Ev. unfold step; rewrite Hpop, Ev. cbn [handle].
  unfold on_arrival. change (put_queue (advance e rest w)) with (put_queue w).
  destruct (Nat.leb MAX_QUEUE_SIZE (length (put_queue w))) eqn:Hfull;
    [apply Nat.leb_le in Hfull | apply Nat.leb_gt in Hfull];
    unfold generator_loop;
    match goal with |- context [if ?c then _ else _] => destruct c end;
    eexists; eexists; (split; [reflexivity|]);
    (split; [|split; [|split]]);
    try (cbn; rewrite <- ?app_assoc; cbn; repeat split; reflexivity);
    try (cbn; split; intros; lia).
  all: cbn; auto.
Qed.

(** C4: the admission test of [user_request_generator].  The arrival is
    dropped exactly when [put_queue] holds [MAX_QUEUE_SIZE] requests or more;
    then nothing but the generator's next timeout is scheduled.  Otherwise a
    [handle_request] process is started, which, when it runs, appends its
    request to [put_queue].  The list of busy servers plays no part. *)
Theorem arrival_admission (w : world) e rest :
  pop_min (queue w) = Some (e, rest) ->
  e_event e = ArrivalTimeout ->
  exists w' next,
    step capacity draws w = Continue w' /\
    (e_event next = ArrivalTimeout \/ e_event next = GeneratorFailed) /\
    (dropped w' = S (dropped w) <-> (MAX_QUEUE_SIZE <= length (put_queue w))%nat) /\
    (if Nat.leb MAX_QUEUE_SIZE (length (put_queue w)) then
       dropped w' = S (dropped w) /\ request_id w' = request_id w /\
       queue w' = rest ++ [next]
     else
       dropped w' = dropped w /\ request_id w' = S (request_id w) /\
       queue w' = rest ++
         [Entry (t_add (e_time e) t_zero) URGENT (next_eid w)
                (InitRequest (request_id w)); next]) /\
    put_queue w' = put_queue w /\
    (forall u : list nat,
       dropped (on_arrival draws (set_resource w u (put_queue w)))
       = dropped (on_arrival draws w)) /\
    (forall rid (w0 : world),
       exists w1, on_init_request capacity rid w0 = trigger_put capacity w1 /\
                  put_queue w1 = put_queue w0 ++ [Req rid (now w0)] /\
                  users w1 = users w0).
Proof.
  intros Hpop Ev.
  destruct (arrival_step w e rest Hpop Ev) as (w' & next & H1 & H2 & H3 & H4 & H5).
  exists w', next. repeat (split; [assumption|]). split.
  - apply on_arrival_users_irrelevant.
  - apply on_init_request_enqueues.
Qed.

(** *** Recorded response times have the expected shape *)

Lemma well_formed_same (w w' : world) :
  queue w' = queue w -> response_times w' = response_times w ->
  well_formed w -> well_formed w'.
Proof. unfold well_formed. intros -> ->. trivial. Qed.

Lemma well_formed_schedule prio d ev (w : world) :
  well_formed w -> service_form (t_add (now w) d) ev ->
  well_formed (schedule prio d ev w).
Proof.
  intros [Hq Hr] Hev. split; [|exact Hr]. simpl.
  apply Forall_app. split; [exact Hq|]. constructor; [exact Hev | constructor].
Qed.

Lemma well_formed_trigger_put (w : world) :
  well_formed w -> well_formed (trigger_put capacity w).
Proof.
  intros Hw. unfold trigger_put. destruct (put_queue w); [exact Hw|].
  destruct (Z.of_nat (length (users w)) <? capacity)%Z; [|exact Hw].
  apply well_formed_schedule; [|exact I].
  revert Hw. apply well_formed_same; reflexivity.
Qed.

Lemma well_formed_generator_loop (w : world) :
  well_formed w -> well_formed (generator_loop draws w).
Proof.
  intros Hw. unfold generator_loop.
  destruct (t_ltb _ _); (apply well_formed_schedule; [|exact I]);
    revert Hw; apply well_formed_same; reflexivity.
Qed.

Lemma well_formed_handle (ev : event) (w : world) :
  well_formed w -> service_form (now w) ev ->
  well_formed (handle capacity draws ev w).
Proof.
  intros Hw Hev. destruct ev; simpl; try exact Hw.
  - apply well_formed_generator_loop.
    revert Hw. apply well_formed_same; reflexivity.
  - unfold on_arrival. destruct (Nat.leb _ _); apply well_formed_generator_loop.
    + revert Hw. apply well_formed_same; reflexivity.
    + assert (Hs : well_formed
                     (schedule URGENT t_zero (InitRequest (request_id w)) w))
        by (apply well_formed_schedule; [exact Hw | exact I]).
      revert Hs. apply well_formed_same; reflexivity.
  - unfold on_init_request. apply well_formed_trigger_put.
    revert Hw. apply well_formed_same; reflexivity.
  - unfold on_granted.
    destruct (t_ltb t_one (t_sub (now w) (req_arrival r))) eqn:Hwait.
    + apply well_formed_schedule; [|exact I]. unfold release.
      apply well_formed_schedule; [|exact I].
      revert Hw. apply well_formed_same; reflexivity.
    + apply well_formed_schedule; [exact Hw|].
      exists (now w). split; [reflexivity | exact Hwait].
  - unfold on_service_done. apply well_formed_schedule; [|exact I].
    simpl in Hev. destruct Hev as (g & Hg & Hwait).
    destruct Hw as [Hq Hr]. split; simpl.
    + apply Forall_app. split; [exact Hq|]. constructor; [exact I|constructor].
    + apply Forall_app. split; [exact Hr|]. constructor; [|constructor].
      exists g, (req_arrival r). rewrite Hg. split; [reflexivity | exact Hwait].
  - apply well_formed_trigger_put. exact Hw.
Qed.

Lemma well_formed_step (w : world) :
  well_formed w -> well_formed (result_world (step capacity draws w)).
Proof.
  intros Hw.
  destruct (step_cases w) as [[_ ->] | (e & rest & Hpop & Hcase)]; [exact Hw|].
  destruct Hw as [Hq Hr]. rewrite List.Forall_forall in Hq.
  assert (He : service_form (e_time e) (e_event e))
    by (apply Hq, (pop_min_In _ _ _ Hpop); left; reflexivity).
  assert (Ha : well_formed (advance e rest w)).
  { split; [|exact Hr]. simpl. apply List.Forall_forall. intros x Hx.
    apply Hq, (pop_min_In _ _ _ Hpop). right. exact Hx. }
  destruct Hcase as [[_ ->] | [[_ ->] | (_ & _ & ->)]]; simpl;
    try exact Ha.
  apply well_formed_handle; assumption.
Qed.

Lemma well_formed_run_prefix (k : nat) (w : world) :
  well_formed w -> well_formed (run_prefix capacity draws k w).
Proof.
  revert w. induction k as [|k IH]; intros w Hw; simpl; [exact Hw|].
  pose proof (well_formed_step w Hw) as Hs.
  destruct (step capacity draws w); simpl in Hs; auto.
Qed.

Lemma well_formed_initial (d : nat) : well_formed (initial_world [] d).
Proof. split; simpl; repeat constructor. Qed.

End Generic.

(** ** Rational time *)

Section Rational.
Variable capacity : Z.
Variable draws : nat -> Q.

Abbreviation qworld := (world Q).
Abbreviation qentry := (entry Q).

Ltac qtime :=
  cbn [t_add t_sub t_ltb t_leb t_eqb t_zero t_one PROCESSING_TIME
       SIMULATION_TIME QTime] in *.

Lemma t_ltb_lt (a b : Q) : t_ltb a b = true <-> a < b.
Proof.
  qtime. rewrite negb_true_iff, <- not_true_iff_false, Qle_bool_iff.
  split; [apply Qnot_le_lt | apply Qlt_not_le].
Qed.

Lemma t_ltb_ge (a b : Q) : t_ltb a b = false <-> b <= a.
Proof. qtime. rewrite negb_false_iff. apply Qle_bool_iff. Qed.

Lemma entry_ltb_lt (a b : qentry) : entry_ltb a b = true <-> entry_lt a b.
Proof.
  unfold entry_ltb, entry_lt.
  change (t_eqb (e_time a) (e_time b)) with (Qeq_bool (e_time a) (e_time b)).
  destruct (Qeq_bool (e_time a) (e_time b)) eqn:Eq.
  - apply Qeq_bool_iff in Eq.
    destruct (Nat.eqb (e_prio a) (e_prio b)) eqn:Ep.
    + apply Nat.eqb_eq in Ep. rewrite Nat.ltb_lt. split.
      * intros Hlt. right. auto.
      * intros [Hlt | [_ [Hlt | [_ Hlt]]]]; [lra | lia | assumption].
    + apply Nat.eqb_neq in Ep. rewrite Nat.ltb_lt. split.
      * intros Hlt. right. auto.
      * intros [Hlt | [_ [Hlt | [Hp _]]]]; [lra | assumption | contradiction].
  - apply Qeq_bool_neq in Eq. rewrite t_ltb_lt. split.
    + intros Hlt. left. assumption.
    + intros [Hlt | [He _]]; [assumption | contradiction].
Qed.

Lemma entry_lt_trans (a b c : qentry) :
  entry_lt a b -> entry_lt b c -> entry_lt a c.
Proof. unfold entry_lt. intros Hab Hbc. destruct Hab as [?|[? ?]], Hbc as [?|[? ?]].
  - left; lra.
  - left; lra.
  - left; lra.
  - right. split; [lra | lia].
Qed.

Lemma entry_lt_asym (a b : qentry) : entry_lt a b -> entry_lt b a -> False.
Proof.
  unfold entry_lt. intros [?|[? ?]] [?|[? ?]]; try lra. lia.
Qed.

(** [pop_min] returns a least entry. *)
Lemma pop_min_least (q : list qentry) m r :
  pop_min q = Some (m, r) -> forall x, In x r -> ~ entry_lt x m.
Proof.
  revert m r. induction q as [|e q IH]; intros m r; simpl; [discriminate|].
  destruct (pop_min q) as [[m' r']|] eqn:E.
  - specialize (IH _ _ eq_refl).
    destruct (entry_ltb e m') eqn:L.
    + intros [= <- <-] x Hx Hlt. apply entry_ltb_lt in L.
      apply (pop_min_In _ _ _ E) in Hx. destruct Hx as [-> | Hx].
      * exact (entry_lt_asym _ _ L Hlt).
      * apply (IH x Hx). exact (entry_lt_trans _ _ _ Hlt L).
    + intros [= <- <-] x [<- | Hx] Hlt.
      * apply entry_ltb_lt in Hlt. congruence.
      * exact (IH x Hx Hlt).
  - intros [= <- <-] x [].
Qed.

Lemma pop_min_time (q : list qentry) m r :
  pop_min q = Some (m, r) -> forall x, In x r -> e_time m <= e_time x.
Proof.
  intros Hpop x Hx. pose proof (pop_min_least _ _ _ Hpop x Hx) as Hn.
  destruct (Qlt_le_dec (e_time x) (e_time m)) as [Hlt|Hle]; [|exact Hle].
  exfalso. apply Hn. left. exact Hlt.
Qed.


(** *** The clock and the bounds on response times *)

Lemma chrono_weaken (h : list (Q * event Q)) (t t' : Q) :
  chrono t h -> t <= t' -> chrono t' h.
Proof.
  destruct h as [|[t0 ev] h]; simpl; [trivial|].
  intros [H1 H2] Hle. split; [lra | assumption].
Qed.

Lemma timely_same (w w' : qworld) :
  now w' = now w -> queue w' = queue w -> put_queue w' = put_queue w ->
  response_times w' = response_times w -> history w' = history w ->
  timely w -> timely w'.
Proof. unfold timely. intros -> -> -> -> ->. trivial. Qed.

Lemma timely_schedule prio (d : Q) ev (w : qworld) :
  timely w -> 0 <= d -> event_ok (now w + d) ev ->
  timely (schedule prio d ev w).
Proof.
  intros (Hq & Hp & Hr & Hh) Hd Hev. unfold timely, schedule; simpl.
  repeat split; try assumption.
  apply Forall_app. split; [assumption|].
  constructor; [|constructor]. split; simpl; [lra | exact Hev].
Qed.

Lemma timely_trigger_put (w : qworld) :
  timely w -> timely (trigger_put capacity w).
Proof.
  intros Hw. unfold trigger_put.
  destruct (put_queue w) as [|r rest] eqn:E; [assumption|].
  destruct (Z.of_nat (length (users w)) <? capacity)%Z; [|assumption].
  destruct Hw as (Hq & Hp & Hr & Hh). rewrite E in Hp.
  apply Forall_cons_iff in Hp. destruct Hp as [Hr0 Hp].
  apply timely_schedule; [| qtime; lra | simpl; qtime; lra].
  unfold timely; simpl. auto.
Qed.

Lemma timely_generator_loop (w : qworld) :
  timely w -> timely (generator_loop draws w).
Proof.
  intros Hw. unfold generator_loop.
  destruct (t_ltb (draws (draw_idx w)) t_zero) eqn:Hneg.
  - apply timely_schedule; [| qtime; lra | exact I].
    revert Hw. apply timely_same; reflexivity.
  - apply t_ltb_ge in Hneg. apply timely_schedule; [| exact Hneg | exact I].
    revert Hw. apply timely_same; reflexivity.
Qed.

Lemma timely_release (r : request Q) (w : qworld) :
  timely w -> timely (release r w).
Proof.
  intros Hw. unfold release.
  apply timely_schedule; [| qtime; lra | exact I].
  revert Hw. apply timely_same; reflexivity.
Qed.

Lemma timely_handle (ev : event Q) (w : qworld) :
  timely w -> event_ok (now w) ev -> timely (handle capacity draws ev w).
Proof.
  intros Hw Hev. destruct ev; simpl; try assumption.
  - apply timely_generator_loop. revert Hw. apply timely_same; reflexivity.
  - unfold on_arrival. destruct (Nat.leb _ _).
    + apply timely_generator_loop. revert Hw. apply timely_same; reflexivity.
    + apply timely_generator_loop.
      assert (Hs : timely (schedule URGENT t_zero (InitRequest (request_id w)) w))
        by (apply timely_schedule; [assumption | qtime; lra | exact I]).
      revert Hs. apply timely_same; reflexivity.
  - unfold on_init_request. apply timely_trigger_put.
    destruct Hw as (Hq & Hp & Hr & Hh). unfold timely; simpl.
    repeat split; try assumption.
    apply Forall_app. split; [assumption|].
    constructor; [simpl; lra | constructor].
  - unfold on_granted. simpl in Hev.
    destruct (t_ltb t_one (t_sub (now w) (req_arrival r))) eqn:Hwait.
    + apply timely_schedule; [| qtime; lra | exact I].
      apply timely_release. revert Hw. apply timely_same; reflexivity.
    + apply t_ltb_ge in Hwait.
      apply timely_schedule; [assumption | qtime; lra |].
      simpl. unfold in_bounds. qtime. lra.
  - unfold on_service_done. simpl in Hev.
    apply timely_schedule; [| qtime; lra | exact I].
    pose proof (timely_release r w Hw) as (Hq & Hp & Hr & Hh).
    unfold timely; simpl in *. repeat split; try assumption.
    apply Forall_app. split; [assumption|].
    constructor; [exact Hev | constructor].
  - apply timely_trigger_put. assumption.
Qed.

Lemma timely_advance (w : qworld) e rest :
  timely w -> pop_min (queue w) = Some (e, rest) ->
  timely (advance e rest w) /\ event_ok (e_time e) (e_event e) /\
  now w <= e_time e.
Proof.
  intros (Hq & Hp & Hr & Hh) Hpop.
  rewrite List.Forall_forall in Hq.
  assert (He : entry_ok (now w) e)
    by (apply Hq, (pop_min_In _ _ _ Hpop); left; reflexivity).
  destruct He as [Hnow Hev]. split; [|split; assumption].
  unfold timely; simpl. repeat split.
  - apply List.Forall_forall. intros x Hx. split.
    + exact (pop_min_time _ _ _ Hpop x Hx).
    + apply Hq, (pop_min_In _ _ _ Hpop). right. exact Hx.
  - revert Hp. apply List.Forall_impl. intros r Ha. lra.
  - assumption.
  - lra.
  - exact (chrono_weaken _ _ _ Hh Hnow).
Qed.

(** Every step keeps the invariant and does not move the clock back. *)
Lemma step_timely (w : qworld) :
  timely w ->
  match step capacity draws w with
  | Continue w' | Stopped w' | Raised _ w' => timely w' /\ now w <= now w'
  end.
Proof.
  intros Hw.
  destruct (step_cases capacity draws w) as [[_ ->] | (e & rest & Hpop & Hcase)].
  - split; [assumption | lra].
  - destruct (timely_advance w e rest Hw Hpop) as (Ha & Hev & Hnow).
    destruct Hcase as [[_ ->] | [[_ ->] | (_ & _ & ->)]]; simpl.
    + split; assumption.
    + split; assumption.
    + split.
      * apply timely_handle; assumption.
      * assert (Hsame : forall ev (w0 : qworld),
                   now (handle capacity draws ev w0) = now w0).
        { intros ev w0. destruct ev; simpl; try reflexivity;
            unfold on_arrival, generator_loop, on_init_request, trigger_put,
                   on_granted, on_service_done;
            repeat match goal with
                   | |- context [if ?c then _ else _] => destruct c
                   | |- context [match ?c with _ => _ end] => destruct c
                   end; reflexivity. }
        rewrite Hsame. simpl. exact Hnow.
Qed.


Lemma handle_queue_grows (ev : event Q) (w : qworld) :
  exists l, queue (handle capacity draws ev w) = queue w ++ l.
Proof.
  destruct ev; simpl;
    unfold on_arrival, generator_loop, on_init_request, trigger_put,
           on_granted, on_service_done, release, schedule; simpl;
    repeat match goal with
           | |- context [if ?c then _ else _] => destruct c; simpl
           | |- context [match ?c with _ => _ end] => destruct c; simpl
           end;
    rewrite <- ?app_assoc;
    solve [eexists; reflexivity | exists []; symmetry; apply app_nil_r].
Qed.

Lemma chrono_bound (h : list (Q * event Q)) (t : Q) :
  chrono t h -> forall t' ev, In (t', ev) h -> t' <= t.
Proof.
  revert t. induction h as [|[t0 ev0] h IH]; intros t; simpl; [tauto|].
  intros [H1 H2] t' ev [[= <- <-] | Hin]; [assumption|].
  specialize (IH _ H2 _ _ Hin). lra.
Qed.

Lemma step_horizon (w : qworld) :
  timely w -> until_pending w ->
  now (result_world (step capacity draws w)) <= SIMULATION_TIME /\
  (forall w', step capacity draws w = Continue w' -> until_pending w').
Proof.
  intros Hw (u & Hu & Ev & Hprio & Ht).
  destruct (step_cases capacity draws w) as [[Hq _] | (e & rest & Hpop & Hcase)].
  - rewrite Hq in Hu. destruct Hu.
  - apply (pop_min_In _ _ _ Hpop) in Hu.
    assert (Hle : e_time e <= SIMULATION_TIME).
    { destruct Hu as [-> | Hu]; [lra|].
      pose proof (pop_min_time _ _ _ Hpop u Hu). lra. }
    destruct Hcase as [[_ ->] | [[_ ->] | (Hne & _ & ->)]]; simpl;
      (split; [try exact Hle | try discriminate]).
    + destruct (e_event e); simpl;
        unfold on_arrival, generator_loop, on_init_request, trigger_put,
               on_granted, on_service_done;
        repeat match goal with
               | |- context [if ?c then _ else _] => destruct c
               | |- context [match ?c with _ => _ end] => destruct c
               end; exact Hle.
    + intros w' [= <-].
      destruct Hu as [-> | Hu]; [contradiction|].
      destruct (handle_queue_grows (e_event e) (advance e rest w)) as [l Hl].
      exists u. rewrite Hl. simpl. split; [apply in_or_app; left; exact Hu|].
      auto.
Qed.

Lemma run_prefix_inv (k : nat) (w : qworld) :
  timely w -> until_pending w -> now w <= SIMULATION_TIME ->
  timely (run_prefix capacity draws k w) /\
  now (run_prefix capacity draws k w) <= SIMULATION_TIME.
Proof.
  revert w. induction k as [|k IH]; intros w Hw Hu Hn; simpl; [auto|].
  pose proof (step_timely w Hw) as Hs.
  pose proof (step_horizon w Hw Hu) as [Hh Hp].
  destruct (step capacity draws w) as [w1|w1|e w1]; simpl in *.
  - apply IH; [tauto | auto | assumption].
  - tauto.
  - tauto.
Qed.

Lemma run_prefix_next (k : nat) (w : qworld) :
  run_prefix capacity draws (S k) w = run_prefix capacity draws k w \/
  run_prefix capacity draws (S k) w
  = result_world (step capacity draws (run_prefix capacity draws k w)).
Proof.
  revert w. induction k as [|k IH]; intros w.
  - right. simpl. destruct (step capacity draws w); reflexivity.
  - change (run_prefix capacity draws (S (S k)) w) with
      (match step capacity draws w with
       | Continue w' => run_prefix capacity draws (S k) w'
       | Stopped w' => w'
       | Raised _ w' => w'
       end).
    change (run_prefix capacity draws (S k) w) with
      (match step capacity draws w with
       | Continue w' => run_prefix capacity draws k w'
       | Stopped w' => w'
       | Raised _ w' => w'
       end).
    destruct (step capacity draws w) as [w1|w1|e w1]; [apply IH | left | left];
      reflexivity.
Qed.

Lemma run_loop_prefix (fuel : nat) (w w' : qworld) :
  run_loop capacity draws fuel w = Done w' ->
  run_prefix capacity draws fuel w = w'.
Proof.
  revert w. induction fuel as [|fuel IH]; intros w; simpl; [discriminate|].
  destruct (step capacity draws w) as [w1|w1|e w1].
  - apply IH.
  - intros [= <-]. reflexivity.
  - discriminate.
Qed.

Lemma initial_world_ok (d : nat) :
  timely (initial_world [] d) /\ until_pending (initial_world [] d) /\
  now (initial_world [] d) <= SIMULATION_TIME.
Proof.
  split; [|split].
  - unfold timely; simpl. repeat split; try constructor;
      try (constructor; [|constructor]); unfold entry_ok; simpl; qtime;
      try split; try exact I; lra.
  - eexists. split; [right; left; reflexivity|]. simpl. qtime.
    repeat split; lra.
  - simpl. qtime. lra.
Qed.

Lemma run_prefix_timely (k d : nat) :
  timely (run_prefix capacity draws k (initial_world [] d)).
Proof.
  destruct (initial_world_ok d) as (Ht & Hu & Hn).
  destruct (run_prefix_inv k _ Ht Hu Hn) as [Hk _]. exact Hk.
Qed.

Lemma run_done_timely (fuel d : nat) (w : qworld) :
  run_loop capacity draws fuel (initial_world [] d) = Done w -> timely w.
Proof.
  intros Hrun. apply run_loop_prefix in Hrun. rewrite <- Hrun.
  apply run_prefix_timely.
Qed.

Lemma run_loop_more_fuel (f f' : nat) (w w' : qworld) :
  run_loop capacity draws f w = Done w' -> (f <= f')%nat ->
  run_loop capacity draws f' w = Done w'.
Proof.
  revert f' w. induction f as [|f IH]; intros f' w; simpl; [discriminate|].
  intros Hrun Hle. destruct f' as [|f']; [lia|]. simpl.
  destruct (step capacity draws w) as [w1|w1|e w1]; try assumption.
  apply IH; [assumption | lia].
Qed.

Lemma run_loop_functional (f1 f2 : nat) (w w1 w2 : qworld) :
  run_loop capacity draws f1 w = Done w1 ->
  run_loop capacity draws f2 w = Done w2 -> w1 = w2.
Proof.
  intros H1 H2.
  apply (run_loop_more_fuel _ (Nat.max f1 f2)) in H1; [|lia].
  apply (run_loop_more_fuel _ (Nat.max f1 f2)) in H2; [|lia].
  congruence.
Qed.

Lemma env_run_start (fuel : nat) (rts : list Q) (d : nat) :
  env_run capacity draws fuel (start_world rts d)
  = run_loop capacity draws fuel (initial_world rts d).
Proof. reflexivity. Qed.

(** C8: in a run of [env.run(until=SIMULATION_TIME)], after any number [k]
    of steps, the clock has not moved back with the last step, the events
    executed so far ran at clock values that never decrease, and none of
    them ran at a clock value beyond the horizon. *)
Theorem clock_monotone_within_horizon (k : nat) :
  let w0 := initial_world [] 0 in
  now (run_prefix capacity draws k w0)
    <= now (run_prefix capacity draws (S k) w0) /\
  chrono (now (run_prefix capacity draws k w0))
         (history (run_prefix capacity draws k w0)) /\
  (forall t ev, In (t, ev) (history (run_prefix capacity draws k w0)) ->
                t <= SIMULATION_TIME).
Proof.
  intros w0. destruct (initial_world_ok 0) as (Ht & Hu & Hn). fold w0 in Ht, Hu, Hn.
  destruct (run_prefix_inv k w0 Ht Hu Hn) as [Hk Hkn].
  split; [|split].
  - destruct (run_prefix_next k w0) as [-> | ->]; [lra|].
    pose proof (step_timely _ Hk) as Hs.
    destruct (step capacity draws (run_prefix capacity draws k w0)); simpl; tauto.
  - apply Hk.
  - intros t ev Hin. destruct Hk as (_ & _ & _ & Hc).
    pose proof (chrono_bound _ _ Hc _ _ Hin). lra.
Qed.

(** *** Termination of the loop *)

Section Termination.
Variable K : nat.
Hypothesis draws_nonneg : forall i, 0 <= draws i.
Hypothesis horizon_reached : SIMULATION_TIME <= arrival_at draws K.

Lemma plain_facts (l : list qentry) (d : nat) :
  Forall plain l ->
  total is_gen_token l = 0%nat /\ total is_arrival l = 0%nat /\
  Forall (gen_entry_ok draws K d) l.
Proof.
  induction 1 as [|e l He _ (IH1 & IH2 & IH3)]; simpl; [auto|].
  assert (Hk : is_gen_token (e_event e) = 0%nat /\
               is_arrival (e_event e) = 0%nat /\ gen_entry_ok draws K d e).
  { unfold plain in He. unfold gen_entry_ok.
    destruct (e_event e); simpl; try contradiction; auto. }
  destruct Hk as (-> & -> & Hk). auto.
Qed.

Lemma no_token_any_idx (l : list qentry) (d d' : nat) :
  total is_gen_token l = 0%nat ->
  Forall (gen_entry_ok draws K d) l ->
  total is_arrival l = 0%nat /\ Forall (gen_entry_ok draws K d') l.
Proof.
  induction l as [|e l IH]; simpl; [auto|].
  intros Htok Hall. apply Forall_cons_iff in Hall. destruct Hall as [He Hall].
  destruct IH as [IH1 IH2]; [lia | assumption |].
  assert (Hk : is_arrival (e_event e) = 0%nat /\ gen_entry_ok draws K d' e).
  { unfold gen_entry_ok in *.
    destruct (e_event e); simpl in *; try lia; auto. }
  destruct Hk as (-> & Hk). auto.
Qed.

Lemma trigger_put_shape (w : qworld) :
  exists l, queue (trigger_put capacity w) = queue w ++ l /\
    draw_idx (trigger_put capacity w) = draw_idx w /\ Forall plain l /\
    (total (event_weight K) l + 4 * length (put_queue (trigger_put capacity w))
     = 4 * length (put_queue w))%nat.
Proof.
  unfold trigger_put. destruct (put_queue w) as [|r rest] eqn:E.
  - exists []. rewrite app_nil_r, E. simpl. auto.
  - destruct (Z.of_nat (length (users w)) <? capacity)%Z.
    + eexists. split; [reflexivity|]. simpl.
      repeat split; [repeat constructor | lia].
    + exists []. rewrite app_nil_r, E. simpl. auto.
Qed.

(** The five events of a request process: each leaves strictly less to do. *)
Lemma handle_plain (ev : event Q) (w : qworld) :
  is_gen_token ev = 0%nat -> ev <> GeneratorFailed -> ev <> UntilEvent ->
  exists l, queue (handle capacity draws ev w) = queue w ++ l /\
    draw_idx (handle capacity draws ev w) = draw_idx w /\ Forall plain l /\
    (total (event_weight K) l
     + 4 * length (put_queue (handle capacity draws ev w))
     < event_weight K ev + 4 * length (put_queue w))%nat.
Proof.
  intros Htok Hf Hu. destruct ev; simpl in *; try discriminate; try contradiction.
  - unfold on_init_request.
    match goal with |- context [trigger_put capacity ?x] =>
      destruct (trigger_put_shape x) as (l & -> & -> & Hl & Hw) end.
    exists l. simpl in *. rewrite length_app in Hw. simpl in Hw.
    repeat split; [assumption | lia].
  - unfold on_granted. destruct (t_ltb _ _).
    + eexists. simpl. rewrite <- app_assoc. split; [reflexivity|]. simpl.
      repeat split; [repeat constructor | lia].
    + eexists. split; [reflexivity|]. simpl.
      repeat split; [repeat constructor | lia].
  - unfold on_service_done. eexists. simpl. rewrite <- app_assoc.
    split; [reflexivity|]. simpl. repeat split; [repeat constructor | lia].
  - destruct (trigger_put_shape w) as (l & -> & -> & Hl & Hw).
    exists l. repeat split; [assumption | lia].
  - exists []. rewrite app_nil_r. simpl. repeat split; [constructor | lia].
Qed.

Lemma generator_loop_nonneg (w : qworld) :
  generator_loop draws w
  = schedule NORMAL (draws (draw_idx w)) ArrivalTimeout
      (set_draw_idx w (S (draw_idx w))).
Proof.
  unfold generator_loop.
  destruct (t_ltb (draws (draw_idx w)) t_zero) eqn:Hneg; [|reflexivity].
  apply t_ltb_lt in Hneg. qtime. pose proof (draws_nonneg (draw_idx w)). lra.
Qed.

Lemma arrival_not_last (w : qworld) e rest :
  until_pending w -> pop_min (queue w) = Some (e, rest) ->
  e_event e = ArrivalTimeout -> gen_entry_ok draws K (draw_idx w) e ->
  (draw_idx w <= K)%nat.
Proof.
  intros (u & Hu & Ev & Hprio & Ht) Hpop Hev Hok.
  unfold gen_entry_ok in Hok. rewrite Hev in Hok.
  destruct Hok as (Hp & Hd & Htime).
  destruct (Nat.eq_dec (draw_idx w) (K + 1)%nat) as [Heq|]; [exfalso | lia].
  rewrite Heq in Htime. replace (K + 1 - 1)%nat with K in Htime by lia.
  apply (pop_min_In _ _ _ Hpop) in Hu. destruct Hu as [-> | Hu]; [congruence|].
  apply (pop_min_least _ _ _ Hpop u Hu). unfold entry_lt.
  destruct (Qlt_le_dec (e_time u) (e_time e)) as [Hlt | Hge]; [left; exact Hlt|].
  right. split; [lra|]. left. rewrite Hprio, Hp. unfold URGENT, NORMAL. lia.
Qed.

Lemma step_progress_plain (w : qworld) e rest :
  pop_min (queue w) = Some (e, rest) ->
  is_gen_token (e_event e) = 0%nat ->
  e_event e <> GeneratorFailed -> e_event e <> UntilEvent ->
  (total is_gen_token (queue w) <= 1)%nat ->
  Forall (gen_entry_ok draws K (draw_idx w)) rest ->
  until_pending (handle capacity draws (e_event e) (advance e rest w)) ->
  gen_inv draws K (handle capacity draws (e_event e) (advance e rest w)) /\
  (potential K (handle capacity draws (e_event e) (advance e rest w))
   < potential K w)%nat.
Proof.
  intros Hpop Htok Hnf Hnu Hq Hrest Hpending.
  pose proof (pop_min_total is_gen_token _ _ _ Hpop) as Ptok.
  pose proof (pop_min_total is_arrival _ _ _ Hpop) as Parr.
  pose proof (pop_min_total (event_weight K) _ _ _ Hpop) as Pwt.
  destruct (handle_plain (e_event e) (advance e rest w) Htok Hnf Hnu)
    as (l & Hl & Hd & Hplain & Hlt).
  destruct (plain_facts l (draw_idx w) Hplain) as (L1 & L2 & L3).
  assert (Harr : is_arrival (e_event e) = 0%nat)
    by (destruct (e_event e); simpl in *; lia).
  split.
  - split; [exact Hpending|]. rewrite Hl, Hd. simpl. split.
    + rewrite total_app. lia.
    + apply Forall_app. split; assumption.
  - unfold potential. rewrite Hl, Hd. simpl in *. rewrite !total_app.
    rewrite Pwt, Parr, Harr, L2. simpl. lia.
Qed.

Lemma step_progress (w : qworld) :
  timely w -> gen_inv draws K w ->
  match step capacity draws w with
  | Continue w' =>
      gen_inv draws K w' /\ (potential K w' < potential K w)%nat
  | Stopped _ => True
  | Raised _ _ => False
  end.
Proof.
  intros Hw (Hu & Htok & Hall).
  pose proof (step_horizon w Hw Hu) as [_ Hpending].
  destruct (step_cases capacity draws w) as [[Hq _] | (e & rest & Hpop & Hcase)].
  { destruct Hu as (u & Hin & _). rewrite Hq in Hin. destruct Hin. }
  rewrite List.Forall_forall in Hall.
  assert (He : gen_entry_ok draws K (draw_idx w) e)
    by (apply Hall, (pop_min_In _ _ _ Hpop); left; reflexivity).
  assert (Hrest : Forall (gen_entry_ok draws K (draw_idx w)) rest)
    by (apply List.Forall_forall; intros x Hx;
        apply Hall, (pop_min_In _ _ _ Hpop); right; exact Hx).
  pose proof (pop_min_total is_gen_token _ _ _ Hpop) as Ptok.
  pose proof (pop_min_total is_arrival _ _ _ Hpop) as Parr.
  pose proof (pop_min_total (event_weight K) _ _ _ Hpop) as Pwt.
  destruct Hcase as [[_ ->] | [[Ev ->] | (Hnu & Hnf & Hstep)]]; [exact I | |].
  { unfold gen_entry_ok in He. rewrite Ev in He. exact He. }
  rewrite Hstep. specialize (Hpending _ Hstep).
  destruct (e_event e) eqn:Ev; try contradiction.
  - (* the generator starts *)
    unfold gen_entry_ok in He. rewrite Ev in He. destruct He as [Hd0 Ht0].
    simpl in Ptok, Parr, Pwt.
    destruct (no_token_any_idx rest _ 1%nat ltac:(lia) Hrest) as [Harr Hrest1].
    simpl. rewrite generator_loop_nonneg. simpl. rewrite Hd0. split.
    + split; [|split].
      * simpl in Hpending.
        rewrite generator_loop_nonneg in Hpending. simpl in Hpending.
        rewrite Hd0 in Hpending. exact Hpending.
      * simpl. rewrite total_app. simpl. lia.
      * simpl. apply Forall_app. split; [exact Hrest1|].
        constructor; [|constructor]. unfold gen_entry_ok; simpl.
        split; [reflexivity|]. split; [lia|]. qtime. lra.
    + unfold potential; simpl. rewrite !total_app. simpl.
      rewrite Pwt, Parr, Harr, Hd0. simpl. lia.
  - (* an arrival *)
    pose proof (arrival_not_last w e rest Hu Hpop Ev He) as HdK.
    unfold gen_entry_ok in He. rewrite Ev in He.
    destruct He as (Hp & Hd & Htime).
    simpl in Ptok, Parr, Pwt.
    destruct (no_token_any_idx rest _ (S (draw_idx w)) ltac:(lia) Hrest)
      as [Harr Hrest1].
    assert (Hnext : e_time e + draws (draw_idx w)
                    == arrival_at draws (S (draw_idx w) - 1)).
    { destruct (draw_idx w) as [|d0] eqn:Ed; [lia|]. simpl.
      replace (d0 - 0)%nat with d0 in * by lia.
      simpl in Htime. replace (d0 - 0)%nat with d0 in Htime by lia.
      rewrite Htime. reflexivity. }
    cbn [handle] in Hpending |- *. unfold on_arrival in Hpending |- *.
    change (put_queue (advance e rest w)) with (put_queue w) in Hpending |- *.
    destruct (Nat.leb MAX_QUEUE_SIZE (length (put_queue w)));
      rewrite generator_loop_nonneg in Hpending |- *;
      simpl in Hpending |- *.
    + split.
      * split; [exact Hpending|]. split.
        -- simpl. rewrite total_app. simpl. lia.
        -- simpl. apply Forall_app. split; [exact Hrest1|].
           constructor; [|constructor]. unfold gen_entry_ok; simpl.
           split; [reflexivity|]. split; [lia|]. qtime. exact Hnext.
      * unfold potential; simpl. rewrite !total_app. simpl.
        rewrite Pwt, Parr, Harr. simpl.
        replace (K + 1 - draw_idx w)%nat
          with (S (K + 1 - S (draw_idx w))) by lia. lia.
    + split.
      * split; [exact Hpending|]. split.
        -- simpl. rewrite <- app_assoc, total_app. simpl. lia.
        -- simpl. rewrite <- app_assoc. apply Forall_app. split; [exact Hrest1|].
           constructor; [exact I|].
           constructor; [|constructor]. unfold gen_entry_ok; simpl.
           split; [reflexivity|]. split; [lia|]. qtime. exact Hnext.
      * unfold potential; simpl. rewrite <- app_assoc, !total_app. simpl.
        rewrite Pwt, Parr, Harr. simpl.
        replace (K + 1 - draw_idx w)%nat
          with (S (K + 1 - S (draw_idx w))) by lia. lia.
  - rewrite <- Ev in *. apply step_progress_plain; auto; rewrite Ev; auto.
  - rewrite <- Ev in *. apply step_progress_plain; auto; rewrite Ev; auto.
  - rewrite <- Ev in *. apply step_progress_plain; auto; rewrite Ev; auto.
  - rewrite <- Ev in *. apply step_progress_plain; auto; rewrite Ev; auto.
  - rewrite <- Ev in *. apply step_progress_plain; auto; rewrite Ev; auto.
Qed.

Lemma run_loop_done (fuel : nat) (w : qworld) :
  timely w -> gen_inv draws K w -> (potential K w < fuel)%nat ->
  exists w', run_loop capacity draws fuel w = Done w'.
Proof.
  revert w. induction fuel as [|fuel IH]; intros w Hw Hg Hp; [lia|].
  simpl. pose proof (step_progress w Hw Hg) as Hs.
  pose proof (step_timely w Hw) as Ht.
  destruct (step capacity draws w) as [w1|w1|e w1].
  - destruct Hs as [Hg1 Hp1]. apply IH; [tauto | assumption | lia].
  - eexists. reflexivity.
  - contradiction.
Qed.

Lemma initial_gen_inv (d : nat) :
  gen_inv draws K (initial_world [] d) /\
  potential K (initial_world [] d) = (7 * K + 3)%nat.
Proof.
  split.
  - split; [apply initial_world_ok|]. split; [simpl; lia|].
    repeat constructor; unfold gen_entry_ok; simpl; qtime; lra.
  - unfold potential; simpl. lia.
Qed.

(** With arrivals that do reach the horizon, the loop stops at the until
    event after at most [7 * K + 4] steps. *)
Lemma run_terminates (d : nat) :
  exists w, run_loop capacity draws (7 * K + 4) (initial_world [] d) = Done w.
Proof.
  destruct (initial_gen_inv d) as [Hg Hp].
  apply run_loop_done; [apply initial_world_ok | exact Hg | lia].
Qed.

End Termination.

End Rational.

(** ** [run_simulation] *)

Lemma run_simulation_unfold (fuel : nat) (draws : nat -> Q) (g : globals)
    (n : Z) :
  (1 <= n)%Z ->
  run_simulation fuel draws g n =
  match run_loop n draws fuel (initial_world [] 0) with
  | OutOfFuel => NoResult
  | Failed e w =>
      Raises e (Globals (<[n := response_times w]> (<[n := []]> (g_response_times g)))
                        (g_utilization_rates g)
                        (<[n := dropped w]> (<[n := 0%nat]> (g_dropped_requests g))))
  | Done w =>
      Returns (avg_response_time (response_times w),
               server_utilization (response_times w) n, dropped w)
        (Globals (<[n := response_times w]> (<[n := []]> (g_response_times g)))
                 (<[n := server_utilization (response_times w) n]>
                    (g_utilization_rates g))
                 (<[n := dropped w]> (<[n := 0%nat]> (g_dropped_requests g))))
  end.
Proof.
  intros Hn. unfold run_simulation.
  destruct (n <=? 0)%Z eqn:E; [apply Z.leb_le in E; lia|].
  cbn [g_response_times g_dropped_requests g_utilization_rates].
  rewrite !lookup_total_insert_eq, env_run_start.
  destruct (run_loop n draws fuel (initial_world [] 0)); try reflexivity.
  unfold store_run.
  cbn [g_response_times g_dropped_requests g_utilization_rates].
  rewrite !lookup_total_insert_eq. reflexivity.
Qed.

(** What a returning call has computed, in terms of the final world of the
    event loop. *)
Lemma run_simulation_returns (fuel : nat) (draws : nat -> Q) (g g' : globals)
    (n : Z) (r : average * Q * nat) :
  (1 <= n)%Z ->
  run_simulation fuel draws g n = Returns r g' ->
  exists w,
    run_loop n draws fuel (initial_world [] 0) = Done w /\
    g_response_times g' !!! n = response_times w /\
    g_dropped_requests g' !!! n = dropped w /\
    g_utilization_rates g' !! n
      = Some (server_utilization (response_times w) n) /\
    r = (avg_response_time (response_times w),
         server_utilization (response_times w) n, dropped w).
Proof.
  intros Hn. rewrite (run_simulation_unfold _ _ _ _ Hn).
  destruct (run_loop n draws fuel (initial_world [] 0)) as [|w|e w];
    try discriminate.
  intros [= <- <-]. exists w.
  cbn [g_response_times g_dropped_requests g_utilization_rates].
  rewrite !lookup_total_insert_eq, lookup_insert_eq. auto.
Qed.

Lemma run_simulation_total (draws : nat -> Q) (g : globals) (n : Z) (K : nat) :
  (1 <= n)%Z -> (forall i, 0 <= draws i) ->
  SIMULATION_TIME <= arrival_at draws K ->
  exists r g', run_simulation (7 * K + 4) draws g n = Returns r g'.
Proof.
  intros Hn Hpos Hreach. rewrite (run_simulation_unfold _ _ _ _ Hn).
  destruct (run_terminates n draws K Hpos Hreach 0) as [w ->].
  eexists. eexists. reflexivity.
Qed.

Lemma fold_Qplus_nonneg (xs : list Q) (a : Q) :
  0 <= a -> Forall (fun x => 0 <= x) xs -> 0 <= fold_left Qplus xs a.
Proof.
  revert a. induction xs as [|x xs IH]; intros a Ha Hall; simpl; [exact Ha|].
  apply Forall_cons_iff in Hall. destruct Hall as [Hx Hall].
  apply IH; [lra | exact Hall].
Qed.

Lemma server_utilization_nonneg (rts : list Q) (n : Z) :
  (1 <= n)%Z -> Forall in_bounds rts -> 0 <= server_utilization rts n.
Proof.
  intros Hn Hb. unfold server_utilization.
  assert (Hs : 0 <= Qsum rts).
  { apply fold_Qplus_nonneg; [lra|]. revert Hb. apply List.Forall_impl.
    intros x [Hx _]. cbn in Hx. lra. }
  assert (Hd : 0 < inject_Z n * SIMULATION_TIME).
  { cbn [SIMULATION_TIME QTime].
    assert (0 < inject_Z n) by (change 0 with (inject_Z 0);
                                rewrite <- Zlt_Qlt; lia).
    nra. }
  assert (Hq : 0 <= Qsum rts / (inject_Z n * SIMULATION_TIME)).
  { apply Qle_shift_div_l; [exact Hd | lra]. }
  nra.
Qed.

Lemma late_arrival_nonneg (i : nat) : 0 <= late_arrival i.
Proof. destruct i; simpl; lra. Qed.

Lemma late_arrival_reaches : SIMULATION_TIME <= arrival_at late_arrival 1.
Proof. vm_compute. discriminate. Qed.

Lemma burst_run :
  exists w, run_loop 1 burst_then_steady 200 (initial_world [] 0) = Done w /\
            100 < server_utilization (response_times w) 1.
Proof.
  eexists. split; [lazy; reflexivity|]. vm_compute. reflexivity.
Qed.

(** C1: a call with at least one server returns (given arrivals that reach
    the horizon); the utilization it returns is the sum of the recorded
    response times, divided by [num_servers * SIMULATION_TIME], times 100; it
    is not negative; and nothing caps it at 100: the run on
    [burst_then_steady] with one server returns more. *)
Theorem utilization_formula (draws : nat -> Q) (g : globals) (n : Z) (K : nat) :
  (1 <= n)%Z -> (forall i, 0 <= draws i) ->
  SIMULATION_TIME <= arrival_at draws K ->
  (exists r g', run_simulation (7 * K + 4) draws g n = Returns r g') /\
  (forall fuel avg util d g',
     run_simulation fuel draws g n = Returns (avg, util, d) g' ->
     util = Qsum (g_response_times g' !!! n)
            / (inject_Z n * SIMULATION_TIME) * 100 /\
     0 <= util) /\
  (exists fuel avg util d g',
     run_simulation fuel burst_then_steady g 1 = Returns (avg, util, d) g' /\
     100 < util).
Proof.
  intros Hn Hpos Hreach. split; [|split].
  - exact (run_simulation_total draws g n K Hn Hpos Hreach).
  - intros fuel avg util d g' Hret.
    destruct (run_simulation_returns _ _ _ _ _ _ Hn Hret)
      as (w & Hrun & -> & _ & _ & [= -> -> ->]).
    split; [reflexivity|].
    apply server_utilization_nonneg; [exact Hn|].
    apply (run_done_timely _ _ _ _ _ Hrun).
  - destruct burst_run as (w & Hrun & Hbig).
    exists 200%nat. do 4 eexists.
    rewrite run_simulation_unfold by lia. rewrite Hrun.
    split; [reflexivity | exact Hbig].
Qed.

(** C5: the average a call returns is [float('inf')] when no response time
    was recorded, a value distinct from any number and in particular from
    0, and otherwise the sum of the recorded response times divided by their
    number; in both cases the call returns. *)
Theorem average_or_sentinel (draws : nat -> Q) (g : globals) (n : Z) (K : nat) :
  (1 <= n)%Z -> (forall i, 0 <= draws i) ->
  SIMULATION_TIME <= arrival_at draws K ->
  (exists r g', run_simulation (7 * K + 4) draws g n = Returns r g') /\
  (forall fuel avg util d g',
     run_simulation fuel draws g n = Returns (avg, util, d) g' ->
     let rts := g_response_times g' !!! n in
     (rts = [] -> avg = Infinity /\ avg <> Finite 0) /\
     (rts <> [] ->
      avg = Finite (Qsum rts / inject_Z (Z.of_nat (length rts))))).
Proof.
  intros Hn Hpos Hreach. split.
  - exact (run_simulation_total draws g n K Hn Hpos Hreach).
  - intros fuel avg util d g' Hret.
    destruct (run_simulation_returns _ _ _ _ _ _ Hn Hret)
      as (w & Hrun & -> & _ & _ & [= -> -> ->]).
    simpl. destruct (response_times w) as [|x xs]; split; intros Hrts;
      try congruence.
    + split; [reflexivity | discriminate].
    + reflexivity.
Qed.

(** C10: when a call returns and no response time was recorded, the result
    is [float('inf')], a utilization equal to 0, and the number of drops the
    run has counted. *)
Theorem no_service_degenerate (draws : nat -> Q) (g : globals) (n : Z)
    (fuel : nat) avg util d g' :
  (1 <= n)%Z ->
  run_simulation fuel draws g n = Returns (avg, util, d) g' ->
  g_response_times g' !!! n = [] ->
  avg = Infinity /\ util == 0 /\
  d = g_dropped_requests g' !!! n /\
  exists w, run_loop n draws fuel (initial_world [] 0) = Done w /\
            response_times w = [] /\ d = dropped w.
Proof.
  intros Hn Hret Hnone.
  destruct (run_simulation_returns _ _ _ _ _ _ Hn Hret)
    as (w & Hrun & Hr & Hd & _ & [= -> -> ->]).
  rewrite Hr in Hnone. rewrite Hnone, Hd.
  split; [reflexivity|]. split.
  - unfold server_utilization, Qsum. simpl. unfold Qdiv. ring.
  - split; [reflexivity|]. exists w. auto.
Qed.

Lemma nonpositive_servers_rejected_aux (fuel : nat) (draws : nat -> Q)
    (g : globals) (n : Z) :
  (n <= 0)%Z ->
  run_simulation fuel draws g n =
  Raises ValueError
    (Globals (<[n := []]> (g_response_times g))
             (g_utilization_rates g)
             (<[n := 0%nat]> (g_dropped_requests g))).
Proof.
  intros Hn. unfold run_simulation.
  destruct (n <=? 0)%Z eqn:E; [reflexivity|].
  apply Z.leb_gt in E. lia.
Qed.

(** C6 (as amended): a server count that is zero or negative makes the call
    fail with the [ValueError] of [Resource], whatever the random stream;
    no step of the event loop is run, and the only trace the call leaves
    is the reset of the two accumulators under that key. *)
Theorem nonpositive_servers_rejected (fuel : nat) (draws : nat -> Q)
    (g : globals) (n : Z) :
  (n <= 0)%Z ->
  run_simulation fuel draws g n =
  Raises ValueError
    (Globals (<[n := []]> (g_response_times g))
             (g_utilization_rates g)
             (<[n := 0%nat]> (g_dropped_requests g))).
Proof.
  apply nonpositive_servers_rejected_aux.
Qed.

(** C7: with the same random stream and the same server count, two calls
    that return give the same triple, whatever the dictionaries held before
    each call. *)
Theorem run_simulation_deterministic (draws : nat -> Q) (n : Z)
    (g1 g2 g1' g2' : globals) (f1 f2 : nat) (r1 r2 : average * Q * nat) :
  run_simulation f1 draws g1 n = Returns r1 g1' ->
  run_simulation f2 draws g2 n = Returns r2 g2' ->
  r1 = r2.
Proof.
  intros H1 H2. destruct (Z_le_gt_dec n 0) as [Hn|Hn].
  - rewrite nonpositive_servers_rejected_aux in H1 by exact Hn. discriminate.
  - assert (Hn' : (1 <= n)%Z) by lia.
    destruct (run_simulation_returns _ _ _ _ _ _ Hn' H1) as (w1 & R1 & _ & _ & _ & ->).
    destruct (run_simulation_returns _ _ _ _ _ _ Hn' H2) as (w2 & R2 & _ & _ & _ & ->).
    rewrite (run_loop_functional _ _ _ _ _ _ _ R1 R2). reflexivity.
Qed.

(** C9 (as amended): with exact rational time, every response time a run
    has recorded lies between [PROCESSING_TIME] and [1 + PROCESSING_TIME].
    With any arithmetic on time, binary64 included, a recorded response time
    is [(g + PROCESSING_TIME) - a] for an arrival time [a] and a grant time
    [g] whose wait [g - a] did not test above the threshold; the operations
    are those of the arithmetic, rounding included. *)
Theorem response_times_in_bounds :
  (forall (capacity : Z) (draws : nat -> Q) (k : nat),
     Forall in_bounds
       (response_times (run_prefix capacity draws k (initial_world [] 0)))) /\
  (forall (T : Type) (ops : TimeOps T) (capacity : Z) (draws : nat -> T)
          (k : nat),
     Forall served_form
       (response_times (run_prefix capacity draws k (initial_world [] 0)))).
Proof.
  split.
  - intros capacity draws k. apply (run_prefix_timely capacity draws k 0).
  - intros T ops capacity draws k.
    apply (well_formed_run_prefix capacity draws k).
    apply well_formed_initial.
Qed.

(** ** Concrete runs *)

(** C2, as stated, fails: one arrival shortly before the horizon is granted
    the server but is neither served nor dropped when the run stops. *)
Lemma arrival_left_in_service :
  exists w, env_run 1 late_arrival 100 (start_world [] 0) = Done w /\
            (dropped w + length (response_times w))%nat <> arrivals w.
Proof. eexists. split; [lazy; reflexivity|]. vm_compute. discriminate. Qed.

Lemma arrivals_accounted_witness :
  exists w, env_run 1 late_arrival 100 (start_world [] 0) = Done w /\
            (dropped w + length (response_times w) + in_flight w)%nat
            = arrivals w.
Proof.
  eexists. split; [lazy; reflexivity|].
  apply (arrivals_accounted 1 late_arrival 100). lazy; reflexivity.
Defined.

Lemma handle_request_transitions_witness :
  (exists w',
     step 1 early_arrival (run_prefix 1 early_arrival 3 (initial_world [] 0))
     = Continue w' /\ dropped w' = 0%nat /\ users w' = [0%nat]) /\
  (exists w',
     step 1 early_arrival (run_prefix 1 early_arrival 4 (initial_world [] 0))
     = Continue w' /\ users w' = [] /\ length (response_times w') = 1%nat).
Proof.
  split.
  - edestruct (handle_request_transitions 1 early_arrival
                 (run_prefix 1 early_arrival 3 (initial_world [] 0)))
      as [Hgrant _]; [lazy; reflexivity|].
    destruct (Hgrant eq_refl) as (w' & Hstep & _ & _ & Hcase).
    exists w'. split; [exact Hstep|]. vm_compute in Hcase.
    destruct Hcase as (Hd & Hu & _). split; assumption.
  - edestruct (handle_request_transitions 1 early_arrival
                 (run_prefix 1 early_arrival 4 (initial_world [] 0)))
      as [_ Hdone]; [lazy; reflexivity|].
    destruct (Hdone eq_refl) as (w' & Hstep & _ & _ & _ & Hu & Hr & _).
    exists w'. split; [exact Hstep|]. rewrite Hu, Hr. split; reflexivity.
Defined.

Lemma arrival_admission_witness :
  exists w',
    step 1 early_arrival (run_prefix 1 early_arrival 1 (initial_world [] 0))
    = Continue w' /\ dropped w' = 0%nat /\ request_id w' = 1%nat.
Proof.
  edestruct (arrival_admission 1 early_arrival
               (run_prefix 1 early_arrival 1 (initial_world [] 0)))
    as (w' & next & Hstep & _ & _ & Hcase & _);
    [lazy; reflexivity | reflexivity |].
  exists w'. split; [exact Hstep|]. vm_compute in Hcase.
  destruct Hcase as (Hd & Hr & _). split; assumption.
Defined.

(** C9, as stated, fails on binary64 time: a request that arrives at 0.7
    and is served at once is recorded with a response time below
    [PROCESSING_TIME], because [(0.7 + 0.2) - 0.7] rounds below [0.2]. *)
Lemma float_response_below_processing_time :
  exists w rt,
    env_run 1 float_arrival 100 (start_world [] 0) = Done w /\
    response_times w = [rt] /\ t_ltb rt PROCESSING_TIME = true.
Proof.
  eexists. eexists. split; [lazy; reflexivity|].
  split; [reflexivity|]. vm_compute. reflexivity.
Qed.

(** C6, as stated, fails: the exception is the [ValueError] of the resource,
    there is no [InvalidConfigurationError]. *)
Lemma zero_servers_raise_value_error :
  exists e g',
    run_simulation 10 late_arrival empty_globals 0 = Raises e g' /\
    exn_name e <> "InvalidConfigurationError"%string.
Proof. eexists. eexists. split; [reflexivity|]. discriminate. Qed.

Lemma nonpositive_servers_rejected_witness :
  (0 <= 0)%Z /\
  run_simulation 10 late_arrival empty_globals 0 =
  Raises ValueError
    (Globals (<[0%Z := []]> ∅) ∅ (<[0%Z := 0%nat]> ∅)).
Proof.
  split; [lia|].
  apply (nonpositive_servers_rejected 10 late_arrival empty_globals 0). lia.
Defined.

Lemma utilization_formula_witness :
  (1 <= 1)%Z /\ (forall i, 0 <= late_arrival i) /\
  SIMULATION_TIME <= arrival_at late_arrival 1 /\
  exists r g', run_simulation 11 late_arrival empty_globals 1 = Returns r g'.
Proof.
  split; [lia|]. split; [exact late_arrival_nonneg|].
  split; [exact late_arrival_reaches|].
  exact (proj1 (utilization_formula late_arrival empty_globals 1 1
                  ltac:(lia) late_arrival_nonneg late_arrival_reaches)).
Defined.

Lemma average_or_sentinel_witness :
  (1 <= 1)%Z /\ (forall i, 0 <= late_arrival i) /\
  SIMULATION_TIME <= arrival_at late_arrival 1 /\
  exists r g', run_simulation 11 late_arrival empty_globals 1 = Returns r g'.
Proof.
  split; [lia|]. split; [exact late_arrival_nonneg|].
  split; [exact late_arrival_reaches|].
  exact (proj1 (average_or_sentinel late_arrival empty_globals 1 1
                  ltac:(lia) late_arrival_nonneg late_arrival_reaches)).
Defined.

Lemma no_service_degenerate_witness :
  exists avg util d g',
    run_simulation 11 late_arrival empty_globals 1 = Returns (avg, util, d) g' /\
    avg = Infinity /\ util == 0 /\ d = 0%nat.
Proof.
  eassert (Hrun : run_simulation 11 late_arrival empty_globals 1
                  = Returns (_, _, _) _) by (vm_compute; reflexivity).
  destruct (no_service_degenerate late_arrival empty_globals 1 11 _ _ _ _ ltac:(lia) Hrun
              ltac:(vm_compute; reflexivity)) as (Ha & Hu & _).
  do 4 eexists. split; [exact Hrun|].
  split; [exact Ha|]. split; [exact Hu | reflexivity].
Defined.

Lemma run_simulation_deterministic_witness :
  exists r1 r2 g1' g2',
    run_simulation 11 late_arrival empty_globals 1 = Returns r1 g1' /\
    run_simulation 40 late_arrival
      (Globals (<[1%Z := [3 # 1]]> ∅) ∅ (<[1%Z := 7%nat]> ∅)) 1
    = Returns r2 g2' /\
    r1 = r2.
Proof.
  do 4 eexists. split; [vm_compute; reflexivity|].
  split; [vm_compute; reflexivity|].
  eapply (run_simulation_deterministic late_arrival 1 empty_globals
            (Globals (<[1%Z := [3 # 1]]> ∅) ∅ (<[1%Z := 7%nat]> ∅))
            _ _ 11 40); vm_compute; reflexivity.
Defined.

(** * Further properties *)

(** ** The resource, the accumulators and the stop of the run, for any
    arithmetic on time *)

Section GenericMore.
Context {T : Type} `{TimeOps T}.
Variable capacity : Z.
Variable draws : nat -> T.

Abbreviation world := (world T).
Abbreviation entry := (entry T).
Abbreviation event := (event T).

Lemma pop_min_perm (q : list entry) m r :
  pop_min q = Some (m, r) -> Permutation q (m :: r).
Proof.
  revert m r. induction q as [|e q IH]; intros m r; simpl; [discriminate|].
  destruct (pop_min q) as [[m' r']|] eqn:E.
  - specialize (IH _ _ eq_refl).
    destruct (entry_ltb e m'); intros [= <- <-]; [reflexivity|].
    rewrite IH. apply perm_swap.
  - intros [= <- <-]. apply pop_min_None in E. subst q. reflexivity.
Qed.

Lemma holder_ids_app (q1 q2 : list entry) :
  holder_ids (q1 ++ q2) = holder_ids q1 ++ holder_ids q2.
Proof.
  induction q1 as [|e q1 IH]; simpl; [reflexivity|].
  rewrite IH, app_assoc. reflexivity.
Qed.

Lemma holder_ids_perm (q q' : list entry) :
  Permutation q q' -> Permutation (holder_ids q) (holder_ids q').
Proof.
  induction 1 as [|x l l' _ IH|x y l|l l' l'' _ IH1 _ IH2]; simpl.
  - reflexivity.
  - apply Permutation_app_head, IH.
  - rewrite !app_assoc. apply Permutation_app_tail, Permutation_app_comm.
  - etransitivity; eassumption.
Qed.

Lemma remove_first_perm (x : nat) (l : list nat) :
  In x l -> Permutation l (x :: remove_first x l).
Proof.
  induction l as [|y l IH]; simpl; [tauto|].
  destruct (Nat.eqb x y) eqn:E.
  - apply Nat.eqb_eq in E. subst y. reflexivity.
  - apply Nat.eqb_neq in E. intros [->|Hin]; [congruence|].
    rewrite (IH Hin) at 1. apply perm_swap.
Qed.

Lemma remove_first_of_perm (x : nat) (l l' : list nat) :
  Permutation l (x :: l') -> Permutation (remove_first x l) l'.
Proof.
  intros Hp. apply (Permutation_cons_inv (a := x)).
  rewrite <- Hp. symmetry. apply remove_first_perm.
  apply (Permutation_in x (Permutation_sym Hp)). left. reflexivity.
Qed.

Lemma remove_first_length (x : nat) (l : list nat) :
  (length (remove_first x l) <= length l)%nat.
Proof.
  induction l as [|y l IH]; simpl; [lia|].
  destruct (Nat.eqb x y); simpl; lia.
Qed.

Lemma slots_ok_schedule prio d ev (w : world) :
  holder_of ev = [] -> slots_ok capacity [] w -> slots_ok capacity [] (schedule prio d ev w).
Proof.
  intros Hev [Hp Hl]. split; [|exact Hl]. simpl in *.
  rewrite holder_ids_app. simpl. rewrite Hev, !app_nil_r. exact Hp.
Qed.

Lemma slots_ok_same (w w' : world) :
  users w' = users w -> queue w' = queue w ->
  slots_ok capacity [] w -> slots_ok capacity [] w'.
Proof. unfold slots_ok. intros -> ->. trivial. Qed.

Lemma slots_ok_trigger_put (w : world) :
  slots_ok capacity [] w -> slots_ok capacity [] (trigger_put capacity w).
Proof.
  intros [Hp Hl]. unfold trigger_put.
  destruct (put_queue w) as [|r rest]; [split; assumption|].
  destruct (Z.of_nat (length (users w)) <? capacity)%Z eqn:E;
    [|split; assumption].
  apply Z.ltb_lt in E. split; simpl in *.
  - rewrite holder_ids_app. simpl.
    apply Permutation_app_tail. exact Hp.
  - rewrite length_app. simpl. lia.
Qed.

Lemma slots_ok_generator_loop (w : world) :
  slots_ok capacity [] w -> slots_ok capacity [] (generator_loop draws w).
Proof.
  intros Hw. unfold generator_loop.
  destruct (t_ltb _ _); (apply slots_ok_schedule; [reflexivity|]);
    revert Hw; apply slots_ok_same; reflexivity.
Qed.

Lemma slots_ok_release (r : request T) (w : world) :
  slots_ok capacity [req_id r] w -> slots_ok capacity [] (release r w).
Proof.
  intros [Hp Hl]. unfold release. apply slots_ok_schedule; [reflexivity|].
  split; simpl in *.
  - apply remove_first_of_perm. exact Hp.
  - pose proof (remove_first_length (req_id r) (users w)). lia.
Qed.

Lemma slots_ok_handle (ev : event) (w : world) :
  slots_ok capacity (holder_of ev) w -> slots_ok capacity [] (handle capacity draws ev w).
Proof.
  intros Hw. destruct ev; simpl in *; try exact Hw.
  - apply slots_ok_generator_loop. revert Hw. apply slots_ok_same; reflexivity.
  - unfold on_arrival. destruct (Nat.leb _ _); apply slots_ok_generator_loop.
    + revert Hw. apply slots_ok_same; reflexivity.
    + assert (Hs : slots_ok capacity []
                     (schedule URGENT t_zero (InitRequest (request_id w)) w))
        by (apply slots_ok_schedule; [reflexivity | exact Hw]).
      revert Hs. apply slots_ok_same; reflexivity.
  - unfold on_init_request. apply slots_ok_trigger_put.
    revert Hw. apply slots_ok_same; reflexivity.
  - unfold on_granted. destruct (t_ltb _ _).
    + apply slots_ok_schedule; [reflexivity|]. apply slots_ok_release.
      destruct Hw as [Hp Hl]. split; assumption.
    + destruct Hw as [Hp Hl]. split; [|exact Hl]. simpl in *.
      rewrite holder_ids_app. simpl.
      rewrite Hp. apply Permutation_cons_append.
  - unfold on_service_done. apply slots_ok_schedule; [reflexivity|].
    assert (Hr : slots_ok capacity [] (release r w)) by (apply slots_ok_release, Hw).
    destruct Hr as [Hp Hl]. split; assumption.
  - apply slots_ok_trigger_put. exact Hw.
Qed.

Lemma slots_ok_step (w : world) :
  slots_ok capacity [] w -> slots_ok capacity [] (result_world (step capacity draws w)).
Proof.
  intros Hw.
  destruct (step_cases capacity draws w)
    as [[_ ->] | (e & rest & Hpop & Hcase)]; [exact Hw|].
  assert (Ha : slots_ok capacity (holder_of (e_event e)) (advance e rest w)).
  { destruct Hw as [Hp Hl]. split; [|exact Hl]. simpl in *.
    rewrite Hp. apply (holder_ids_perm _ _ (pop_min_perm _ _ _ Hpop)). }
  destruct Hcase as [[Ev ->] | [[Ev ->] | (_ & _ & ->)]]; simpl.
  - rewrite Ev in Ha. exact Ha.
  - rewrite Ev in Ha. exact Ha.
  - apply slots_ok_handle, Ha.
Qed.

Lemma slots_ok_run_prefix (k : nat) (w : world) :
  slots_ok capacity [] w -> slots_ok capacity [] (run_prefix capacity draws k w).
Proof.
  revert w. induction k as [|k IH]; intros w Hw; simpl; [exact Hw|].
  pose proof (slots_ok_step w Hw) as Hs.
  destruct (step capacity draws w); simpl in Hs; auto.
Qed.


(** X1: at every point of a run, the servers in use are exactly the
    requests whose grant or service timeout is pending, and their number
    does not exceed the capacity of the resource. *)
Theorem servers_never_oversubscribed (k : nat) :
  (0 <= capacity)%Z ->
  let w := run_prefix capacity draws k (initial_world [] 0) in
  Permutation (users w) (holder_ids (queue w)) /\
  (Z.of_nat (length (users w)) <= capacity)%Z.
Proof.
  intros Hc. apply (slots_ok_run_prefix k (initial_world [] 0)).
  split; simpl; [constructor | lia].
Qed.

(** *** The accumulators only grow *)

Lemma trigger_put_metrics (w : world) :
  dropped (trigger_put capacity w) = dropped w /\
  response_times (trigger_put capacity w) = response_times w.
Proof.
  unfold trigger_put. destruct (put_queue w); [auto|].
  destruct (Z.of_nat (length (users w)) <? capacity)%Z; auto.
Qed.

Lemma generator_loop_metrics (w : world) :
  dropped (generator_loop draws w) = dropped w /\
  response_times (generator_loop draws w) = response_times w.
Proof. unfold generator_loop. destruct (t_ltb _ _); auto. Qed.

Lemma handle_metrics (ev : event) (w : world) :
  exists l,
    response_times (handle capacity draws ev w) = response_times w ++ l /\
    (dropped w <= dropped (handle capacity draws ev w))%nat /\
    (dropped (handle capacity draws ev w) + length l <= dropped w + 1)%nat.
Proof.
  destruct ev; simpl.
  - destruct (generator_loop_metrics (set_request_id w 0)) as [-> ->].
    exists []. rewrite app_nil_r. simpl. repeat split; lia.
  - unfold on_arrival. destruct (Nat.leb _ _);
      match goal with |- context [generator_loop draws ?x] =>
        destruct (generator_loop_metrics x) as [-> ->] end;
      exists []; rewrite app_nil_r; simpl; repeat split; lia.
  - unfold on_init_request.
    match goal with |- context [trigger_put capacity ?x] =>
      destruct (trigger_put_metrics x) as [-> ->] end.
    exists []. rewrite app_nil_r. simpl. repeat split; lia.
  - unfold on_granted. destruct (t_ltb _ _);
      exists []; rewrite app_nil_r; simpl; repeat split; lia.
  - eexists. simpl. split; [reflexivity|]. simpl. split; lia.
  - destruct (trigger_put_metrics w) as [-> ->].
    exists []. rewrite app_nil_r. simpl. repeat split; lia.
  - exists []. rewrite app_nil_r. simpl. repeat split; lia.
  - exists []. rewrite app_nil_r. simpl. repeat split; lia.
  - exists []. rewrite app_nil_r. simpl. repeat split; lia.
Qed.

Lemma step_metrics (w : world) :
  exists l,
    response_times (result_world (step capacity draws w))
    = response_times w ++ l /\
    (dropped w <= dropped (result_world (step capacity draws w)))%nat /\
    (dropped (result_world (step capacity draws w)) + length l
     <= dropped w + 1)%nat.
Proof.
  destruct (step_cases capacity draws w)
    as [[_ ->] | (e & rest & Hpop & Hcase)].
  - exists []. rewrite app_nil_r. simpl. repeat split; lia.
  - destruct Hcase as [[_ ->] | [[_ ->] | (_ & _ & ->)]]; simpl.
    + exists []. rewrite app_nil_r. simpl. repeat split; lia.
    + exists []. rewrite app_nil_r. simpl. repeat split; lia.
    + apply (handle_metrics (e_event e) (advance e rest w)).
Qed.

(** X2: along a run, from any world on, the drop counter never decreases,
    the response times already recorded stay where they are (new ones are
    appended), and [k] steps settle at most [k] requests. *)
Theorem metrics_only_grow (k : nat) (w : world) :
  exists l,
    response_times (run_prefix capacity draws k w) = response_times w ++ l /\
    (dropped w <= dropped (run_prefix capacity draws k w))%nat /\
    (dropped (run_prefix capacity draws k w) + length l <= dropped w + k)%nat.
Proof.
  revert w. induction k as [|k IH]; intros w.
  - exists []. rewrite app_nil_r. simpl. repeat split; lia.
  - destruct (step_metrics w) as (l1 & Hr1 & Hd1 & Hb1).
    assert (Hnext : run_prefix capacity draws (S k) w
                    = result_world (step capacity draws w) \/
                    run_prefix capacity draws (S k) w
                    = run_prefix capacity draws k
                        (result_world (step capacity draws w))).
    { simpl. destruct (step capacity draws w); simpl; auto. }
    destruct Hnext as [-> | ->].
    + exists l1. split; [exact Hr1|]. split; lia.
    + destruct (IH (result_world (step capacity draws w)))
        as (l2 & Hr2 & Hd2 & Hb2).
      exists (l1 ++ l2). rewrite Hr2, Hr1, app_assoc, length_app.
      split; [reflexivity|]. split; lia.
Qed.

(** *** The run stops at its horizon *)

Lemma handle_appends (ev : event) (w : world) :
  exists l, queue (handle capacity draws ev w) = queue w ++ l /\
            total is_until l = 0%nat.
Proof.
  destruct ev; simpl;
    unfold on_arrival, generator_loop, on_init_request, trigger_put,
           on_granted, on_service_done, release, schedule; simpl;
    repeat match goal with
           | |- context [if ?c then _ else _] => destruct c; simpl
           | |- context [match ?c with _ => _ end] => destruct c; simpl
           end;
    rewrite <- ?app_assoc;
    solve [eexists; split; [reflexivity | reflexivity]
          | exists []; split; [symmetry; apply app_nil_r | reflexivity]].
Qed.

Lemma until_times_step (t : T) (w w' : world) :
  Forall (fun e => e_event e = UntilEvent -> e_time e = t) (queue w) ->
  step capacity draws w = Continue w' ->
  Forall (fun e => e_event e = UntilEvent -> e_time e = t) (queue w').
Proof.
  intros Hall Hstep.
  destruct (step_cases capacity draws w)
    as [[_ Hs] | (e & rest & Hpop & Hcase)]; [congruence|].
  destruct Hcase as [[_ Hs] | [[_ Hs] | (_ & _ & Hs)]]; try congruence.
  rewrite Hs in Hstep. injection Hstep as <-.
  destruct (handle_appends (e_event e) (advance e rest w)) as (l & -> & Hl).
  simpl. apply Forall_app. split.
  - rewrite List.Forall_forall in *. intros x Hx.
    apply Hall, (pop_min_In _ _ _ Hpop). right. exact Hx.
  - clear -Hl. induction l as [|x l IH]; constructor.
    + intros Ev. simpl in Hl. rewrite Ev in Hl. discriminate.
    + apply IH. simpl in Hl. lia.
Qed.

Lemma run_loop_stops_at (t : T) (fuel : nat) (w w' : world) :
  Forall (fun e => e_event e = UntilEvent -> e_time e = t) (queue w) ->
  run_loop capacity draws fuel w = Done w' ->
  now w' = t /\ exists h, history w' = (t, UntilEvent) :: h.
Proof.
  revert w. induction fuel as [|fuel IH]; intros w Hall; simpl; [discriminate|].
  destruct (step capacity draws w) as [w1|w1|e w1] eqn:Hstep.
  - apply IH. exact (until_times_step t w w1 Hall Hstep).
  - intros [= <-].
    destruct (step_cases capacity draws w)
      as [[_ Hs] | (e & rest & Hpop & Hcase)]; [congruence|].
    destruct Hcase as [[Ev Hs] | [[_ Hs] | (_ & _ & Hs)]]; try congruence.
    rewrite Hs in Hstep. injection Hstep as <-.
    rewrite List.Forall_forall in Hall.
    assert (Ht : e_time e = t)
      by (apply Hall; [apply (pop_min_In _ _ _ Hpop); left; reflexivity
                      | exact Ev]).
    simpl. rewrite Ht, Ev. split; [reflexivity|]. eexists. reflexivity.
  - discriminate.
Qed.

(** X3: when [env.run(until=SIMULATION_TIME)] returns, the last event it
    has executed is the until event and the clock stands at the initial
    time plus the delay of that event, whatever happened before. *)
Theorem run_stops_at_horizon (fuel : nat) (rts : list T) (d : nat) (w : world) :
  env_run capacity draws fuel (start_world rts d) = Done w ->
  now w = t_add t_zero (t_sub SIMULATION_TIME t_zero) /\
  exists h, history w = (now w, UntilEvent) :: h.
Proof.
  unfold env_run. destruct (t_leb _ _); [discriminate|]. intros Hrun.
  apply (run_loop_stops_at (t_add t_zero (t_sub SIMULATION_TIME t_zero)))
    in Hrun.
  - destruct Hrun as [Hn Hh]. rewrite Hn. split; [reflexivity | exact Hh].
  - simpl. constructor; [intros Ev; discriminate|].
    constructor; [intros _; reflexivity | constructor].
Qed.

End GenericMore.

(** ** The waiting line and the average, rational time *)

Section RationalMore.
Variable capacity : Z.
Variable draws : nat -> Q.

Abbreviation qworld := (world Q).
Abbreviation qentry := (entry Q).

Ltac qtime :=
  cbn [t_add t_sub t_ltb t_leb t_eqb t_zero t_one PROCESSING_TIME
       SIMULATION_TIME QTime] in *.

Lemma total_zero_member (f : event Q -> nat) (q : list qentry) x :
  total f q = 0%nat -> In x q -> f (e_event x) = 0%nat.
Proof.
  induction q as [|e q IH]; simpl; [tauto|].
  intros Hz [<- | Hin]; [lia | apply IH; [lia | exact Hin]].
Qed.

Lemma init_generator_le_token (q : list qentry) :
  (total is_init_generator q <= total is_gen_token q)%nat /\
  (total is_arrival q <= total is_gen_token q)%nat.
Proof.
  induction q as [|e q [IH1 IH2]]; simpl; [lia|].
  destruct (e_event e); simpl; lia.
Qed.

Lemma line_inv_advance (w : qworld) e rest :
  line_inv w -> pop_min (queue w) = Some (e, rest) ->
  line_inv (advance e rest w).
Proof.
  intros (Ha & He & Hc & Hd) Hpop.
  pose proof (pop_min_total is_gen_token _ _ _ Hpop) as Ptok.
  pose proof (pop_min_total is_init_request _ _ _ Hpop) as Pinit.
  pose proof (pop_min_total is_init_generator _ _ _ Hpop) as Pgen.
  pose proof (init_generator_le_token rest) as [Lg _].
  unfold line_inv; simpl. repeat split.
  - lia.
  - intros Hg. assert (total is_init_generator (queue w) = 1%nat).
    { pose proof (init_generator_le_token (queue w)) as [Lq _]. lia. }
    specialize (He H). lia.
  - intros i a Hi Hx. apply Hc; apply (pop_min_In _ _ _ Hpop); right; assumption.
  - lia.
Qed.

(** The events of a request process add nothing of the generator's to the
    heap and start no process. *)
Lemma request_event_shape (ev : event Q) (w : qworld) :
  is_gen_token ev = 0%nat -> ev <> GeneratorFailed -> ev <> UntilEvent ->
  exists l, queue (handle capacity draws ev w) = queue w ++ l /\
    total is_gen_token l = 0%nat /\ total is_init_request l = 0%nat /\
    (length (put_queue (handle capacity draws ev w))
     <= length (put_queue w) + is_init_request ev)%nat.
Proof.
  intros Htok Hf Hu. destruct ev; simpl in *; try discriminate; try contradiction.
  - unfold on_init_request, trigger_put. simpl.
    destruct (put_queue w ++ [Req rid (now w)]) as [|r rest] eqn:E.
    + exists []. rewrite app_nil_r. simpl.
      apply (f_equal (@length _)) in E. rewrite length_app in E. simpl in E.
      repeat split; lia.
    + apply (f_equal (@length _)) in E. rewrite length_app in E. simpl in E.
      destruct (Z.of_nat (length (users w)) <? capacity)%Z.
      * eexists. split; [reflexivity|]. simpl. repeat split; lia.
      * exists []. rewrite app_nil_r. simpl. repeat split; lia.
  - unfold on_granted. destruct (t_ltb _ _).
    + eexists. simpl. rewrite <- app_assoc. split; [reflexivity|].
      simpl. repeat split; lia.
    + eexists. split; [reflexivity|]. simpl. repeat split; lia.
  - unfold on_service_done. eexists. simpl. rewrite <- app_assoc.
    split; [reflexivity|]. simpl. repeat split; lia.
  - unfold trigger_put. destruct (put_queue w) as [|r0 rest] eqn:E.
    + exists []. rewrite app_nil_r, E. simpl. repeat split; lia.
    + destruct (Z.of_nat (length (users w)) <? capacity)%Z.
      * eexists. split; [reflexivity|]. simpl. repeat split; lia.
      * exists []. rewrite app_nil_r, E. simpl. repeat split; lia.
  - exists []. rewrite app_nil_r. simpl. repeat split; lia.
Qed.

Lemma line_inv_request_event (ev : event Q) (w : qworld) :
  is_gen_token ev = 0%nat -> ev <> GeneratorFailed -> ev <> UntilEvent ->
  line_inv w ->
  (length (put_queue w) + total is_init_request (queue w)
   + is_init_request ev <= MAX_QUEUE_SIZE)%nat ->
  line_inv (handle capacity draws ev w).
Proof.
  intros Htok Hf Hu (Ha & He & Hc & Hd) Hslack.
  destruct (request_event_shape ev w Htok Hf Hu) as (l & Hq & L1 & L2 & L3).
  pose proof (init_generator_le_token l) as [Lg La].
  unfold line_inv. rewrite Hq, !total_app. repeat split.
  - lia.
  - intros Hg. rewrite He; lia.
  - intros i a Hi Hx Ii Ea.
    apply in_app_or in Hi. apply in_app_or in Hx.
    destruct Hi as [Hi | Hi];
      [| pose proof (total_zero_member is_init_request l i L2 Hi); lia].
    destruct Hx as [Hx | Hx]; [apply Hc; assumption|].
    pose proof (total_zero_member is_arrival l a ltac:(lia) Hx) as Hz.
    rewrite Ea in Hz. discriminate.
  - lia.
Qed.

Lemma line_inv_after_generator (rest : list qentry) (x : qentry)
    (w' : qworld) :
  total is_gen_token rest = 0%nat -> total is_init_request rest = 0%nat ->
  queue w' = rest ++ [x] -> is_init_request (e_event x) = 0%nat ->
  (is_gen_token (e_event x) <= 1)%nat ->
  is_init_generator (e_event x) = 0%nat ->
  (length (put_queue w') <= MAX_QUEUE_SIZE)%nat ->
  line_inv w'.
Proof.
  intros Htok Hinit Hq Hx Hxt Hxg Hlen.
  pose proof (init_generator_le_token rest) as [Lg La].
  unfold line_inv. rewrite Hq, !total_app. simpl. repeat split.
  - lia.
  - lia.
  - intros i a Hi _ Ii _. apply in_app_or in Hi. destruct Hi as [Hi | [<- | []]].
    + pose proof (total_zero_member is_init_request rest i Hinit Hi). lia.
    + lia.
  - lia.
Qed.

Lemma line_inv_step (w : qworld) :
  line_inv w -> line_inv (result_world (step capacity draws w)).
Proof.
  intros Hw.
  destruct (step_cases capacity draws w)
    as [[_ ->] | (e & rest & Hpop & Hcase)]; [exact Hw|].
  pose proof (line_inv_advance w e rest Hw Hpop) as Hadv.
  destruct Hcase as [[_ ->] | [[_ ->] | (Hnu & Hnf & ->)]];
    [exact Hadv | exact Hadv |].
  destruct Hw as (Ha & He & Hc & Hd).
  pose proof (pop_min_total is_gen_token _ _ _ Hpop) as Ptok.
  pose proof (pop_min_total is_init_request _ _ _ Hpop) as Pinit.
  pose proof (pop_min_total is_init_generator _ _ _ Hpop) as Pgen.
  simpl. destruct (e_event e) eqn:Ev; try contradiction.
  - (* the generator starts *)
    simpl in *. assert (Hz : total is_init_request rest = 0%nat).
    { pose proof (init_generator_le_token rest) as [Lg _].
      assert (total is_init_generator (queue w) = 1%nat) by lia.
      specialize (He H). lia. }
    unfold generator_loop.
    match goal with |- context [if ?c then _ else _] => destruct c end;
      (eapply (line_inv_after_generator rest);
       [ | exact Hz | reflexivity | reflexivity | simpl; lia
         | reflexivity | simpl; lia]); lia.
  - (* an arrival *)
    simpl in *. assert (Hz : total is_init_request rest = 0%nat).
    { destruct (total is_init_request rest) as [|n] eqn:En; [reflexivity|].
      exfalso.
      assert (Hex : exists i, In i rest /\ is_init_request (e_event i) = 1%nat).
      { clear -En. induction rest as [|x rest IH]; simpl in En; [discriminate|].
        destruct (is_init_request (e_event x)) as [|m] eqn:Ex.
        - destruct (IH En) as (i & Hi & Ii). exists i. split; [right|]; assumption.
        - exists x. split; [left; reflexivity|].
          destruct (e_event x); simpl in *; congruence. }
      destruct Hex as (i & Hi & Ii).
      apply (pop_min_least _ _ _ Hpop i Hi).
      apply Hc; try assumption; apply (pop_min_In _ _ _ Hpop);
        [right; exact Hi | left; reflexivity]. }
    unfold on_arrival.
    change (put_queue (advance e rest w)) with (put_queue w).
    destruct (Nat.leb MAX_QUEUE_SIZE (length (put_queue w))) eqn:Hfull.
    + unfold generator_loop.
      match goal with |- context [if ?c then _ else _] => destruct c end;
        (eapply (line_inv_after_generator rest);
       [ | exact Hz | reflexivity | reflexivity | simpl; lia
         | reflexivity | simpl; lia]); lia.
    + apply Nat.leb_gt in Hfull. unfold generator_loop.
      pose proof (init_generator_le_token rest) as [Lg La].
      match goal with |- context [if ?c then _ else _] =>
        destruct c eqn:Hneg end;
        unfold line_inv; simpl; rewrite <- ?app_assoc, !total_app; simpl;
        repeat split; try lia.
      * intros i a Hi Hx Ii Ea. exfalso.
        apply in_app_or in Hx. destruct Hx as [Hx | [<- | [<- | []]]];
          try discriminate.
        pose proof (total_zero_member is_arrival rest a ltac:(lia) Hx) as Hz'.
        rewrite Ea in Hz'. discriminate.
      * intros i a Hi Hx Ii Ea.
        apply in_app_or in Hi. destruct Hi as [Hi | [<- | [<- | []]]];
          [pose proof (total_zero_member is_init_request rest i Hz Hi); lia
          | | discriminate].
        apply in_app_or in Hx. destruct Hx as [Hx | [<- | [<- | []]]];
          [pose proof (total_zero_member is_arrival rest a ltac:(lia) Hx) as Hz';
           rewrite Ea in Hz'; discriminate
          | discriminate |].
        apply t_ltb_ge in Hneg. simpl in Hneg. unfold entry_lt; simpl. qtime.
        destruct (Qlt_le_dec 0 (draws (draw_idx w))) as [Hpos | Hle].
        -- left. lra.
        -- right. split; [lra|]. left. unfold URGENT, NORMAL. lia.
  - apply (line_inv_request_event (InitRequest rid)); try discriminate;
      [reflexivity | exact Hadv | simpl in *; lia].
  - apply (line_inv_request_event (RequestGranted r)); try discriminate;
      [reflexivity | exact Hadv | simpl in *; lia].
  - apply (line_inv_request_event (ServiceTimeout r)); try discriminate;
      [reflexivity | exact Hadv | simpl in *; lia].
  - apply (line_inv_request_event (ReleaseDone r)); try discriminate;
      [reflexivity | exact Hadv | simpl in *; lia].
  - apply (line_inv_request_event (ProcessEnded rid)); try discriminate;
      [reflexivity | exact Hadv | simpl in *; lia].
Qed.

Lemma line_inv_run_prefix (k : nat) (w : qworld) :
  line_inv w -> line_inv (run_prefix capacity draws k w).
Proof.
  revert w. induction k as [|k IH]; intros w Hw; simpl; [exact Hw|].
  pose proof (line_inv_step w Hw) as Hs.
  destruct (step capacity draws w); simpl in Hs; auto.
Qed.

(** X4: the waiting line of the resource never holds more than
    [MAX_QUEUE_SIZE] requests, at any point of a run. *)
Theorem waiting_line_bounded (k : nat) :
  (length (put_queue (run_prefix capacity draws k (initial_world [] 0)))
   <= MAX_QUEUE_SIZE)%nat.
Proof.
  assert (Hk : line_inv (run_prefix capacity draws k (initial_world [] 0))).
  { apply line_inv_run_prefix. unfold line_inv; simpl. repeat split.
    - lia.
    - intros i a [<- | [<- | []]] _ Ii; discriminate.
    - unfold MAX_QUEUE_SIZE. lia. }
  destruct Hk as (_ & _ & _ & Hd). lia.
Qed.

End RationalMore.

(** ** The average of a run *)

Lemma fold_Qplus_bounds (lo hi : Q) (xs : list Q) (a : Q) :
  Forall (fun x => lo <= x /\ x <= hi) xs ->
  a + lo * inject_Z (Z.of_nat (length xs)) <= fold_left Qplus xs a /\
  fold_left Qplus xs a <= a + hi * inject_Z (Z.of_nat (length xs)).
Proof.
  revert a. induction xs as [|x xs IH]; intros a Hall.
  - cbn [length fold_left]. change (inject_Z (Z.of_nat 0)) with 0.
    split; lra.
  - apply Forall_cons_iff in Hall. destruct Hall as [[Hlo Hhi] Hall].
    destruct (IH (a + x) Hall) as [IH1 IH2].
    assert (Hlen : inject_Z (Z.of_nat (length (x :: xs)))
                   == inject_Z (Z.of_nat (length xs)) + 1).
    { simpl length. rewrite Nat2Z.inj_succ, <- Z.add_1_r, inject_Z_plus.
      reflexivity. }
    simpl fold_left. rewrite Hlen. split; nra.
Qed.



(** ** Runs whose arrivals reach the horizon *)

Section Bounded.
Variable capacity : Z.
Variable draws : nat -> Q.
Variable K : nat.
Hypothesis draws_nonneg : forall i, 0 <= draws i.
Hypothesis horizon_reached : SIMULATION_TIME <= arrival_at draws K.

Abbreviation qworld := (world Q).
Abbreviation qentry := (entry Q).

Ltac qtime :=
  cbn [t_add t_sub t_ltb t_leb t_eqb t_zero t_one PROCESSING_TIME
       SIMULATION_TIME QTime] in *.

Lemma handle_plain_ids (ev : event Q) (w : qworld) :
  is_gen_token ev = 0%nat ->
  request_id (handle capacity draws ev w) = request_id w.
Proof.
  intros Htok. destruct ev; simpl in *; try discriminate; try reflexivity;
    unfold on_init_request, trigger_put, on_granted, on_service_done;
    repeat match goal with
           | |- context [if ?c then _ else _] => destruct c
           | |- context [match ?c with _ => _ end] => destruct c
           end; reflexivity.
Qed.

Lemma arrivals_handle (ev : event Q) (w : qworld) :
  arrivals (handle capacity draws ev w) = arrivals w.
Proof.
  unfold arrivals. destruct (handle_account capacity draws ev w) as [_ ->].
  reflexivity.
Qed.

Lemma arrivals_advance (w : qworld) e rest :
  arrivals (advance e rest w) = (arrivals w + is_arrival (e_event e))%nat.
Proof.
  unfold arrivals, advance. cbn [history]. rewrite is_arrival_filter. lia.
Qed.

Lemma draws_inv_step (w : qworld) :
  timely w -> gen_inv draws K w -> draws_inv K w ->
  draws_inv K (result_world (step capacity draws w)).
Proof.
  intros Hw (Hu & Htok & Hall) (D1 & D2 & D3 & D4).
  destruct (step_cases capacity draws w)
    as [[_ ->] | (e & rest & Hpop & Hcase)]; [repeat split; assumption|].
  rewrite List.Forall_forall in Hall.
  assert (He : gen_entry_ok draws K (draw_idx w) e)
    by (apply Hall, (pop_min_In _ _ _ Hpop); left; reflexivity).
  pose proof (pop_min_total is_gen_token _ _ _ Hpop) as Ptok.
  pose proof (pop_min_total is_init_generator _ _ _ Hpop) as Pgen.
  pose proof (init_generator_le_token rest) as [Lg La].
  pose proof (arrivals_advance w e rest) as Ha.
  assert (Hstop : e_event e = UntilEvent \/ e_event e = GeneratorFailed ->
                  draws_inv K (advance e rest w)).
  { intros Hev. unfold draws_inv. rewrite Ha. simpl.
    destruct Hev as [Ev | Ev]; rewrite Ev in *; simpl in *;
      repeat split; lia. }
  destruct Hcase as [[Ev ->] | [[Ev ->] | (Hnu & Hnf & ->)]]; simpl;
    [apply Hstop; auto | apply Hstop; auto |].
  unfold draws_inv. rewrite arrivals_handle, Ha.
  destruct (e_event e) eqn:Ev; try contradiction;
    [ | |
      rewrite <- Ev;
      destruct (handle_plain capacity draws K (e_event e) (advance e rest w))
        as (l & Hq & Hd & Hplain & _);
      [rewrite Ev; reflexivity | rewrite Ev; discriminate
       | rewrite Ev; discriminate |];
      destruct (plain_facts draws K l 0 Hplain) as (L1 & _ & _);
      pose proof (init_generator_le_token l) as [Ll _];
      rewrite Hq, Hd, handle_plain_ids, total_app by (rewrite Ev; reflexivity);
      rewrite Ev in *; simpl in *; repeat split; lia .. ].
  - unfold gen_entry_ok in He. rewrite Ev in He. destruct He as [Hd0 _].
    simpl. rewrite generator_loop_nonneg by assumption. simpl.
    rewrite total_app. simpl in *. repeat split; lia.
  - pose proof (arrival_not_last draws K horizon_reached
                  w e rest Hu Hpop Ev He) as HdK.
    unfold gen_entry_ok in He. rewrite Ev in He. destruct He as (_ & Hd & _).
    cbn [handle]. unfold on_arrival.
    change (put_queue (advance e rest w)) with (put_queue w).
    destruct (Nat.leb MAX_QUEUE_SIZE (length (put_queue w)));
      rewrite generator_loop_nonneg by assumption; simpl;
      rewrite <- ?app_assoc, total_app; simpl in *; repeat split; lia.
Qed.


(** All the invariants of a run with productive arrivals, together. *)
Lemma run_loop_invariants (fuel : nat) (w w' : qworld) :
  timely w -> gen_inv draws K w -> draws_inv K w ->
  run_loop capacity draws fuel w = Done w' ->
  timely w' /\ draws_inv K w'.
Proof.
  revert w. induction fuel as [|fuel IH]; intros w Hw Hg Hd; simpl;
    [discriminate|].
  pose proof (step_timely capacity draws w Hw) as Ht.
  pose proof (step_progress capacity draws K draws_nonneg horizon_reached
                w Hw Hg) as Hp.
  pose proof (draws_inv_step w Hw Hg Hd) as Hs.
  destruct (step capacity draws w) as [w1|w1|e w1]; simpl in Hs.
  - apply IH; tauto.
  - intros [= <-]. tauto.
  - discriminate.
Qed.

Lemma initial_draws_inv : draws_inv K (initial_world [] 0).
Proof. unfold draws_inv, arrivals; simpl. repeat split; lia. Qed.

Lemma run_settles_at_most_K (fuel : nat) (w : qworld) :
  run_loop capacity draws fuel (initial_world [] 0) = Done w ->
  (arrivals w <= K)%nat /\
  (dropped w + length (response_times w) <= K)%nat.
Proof.
  intros Hrun.
  destruct (run_loop_invariants fuel _ w
              (proj1 (initial_world_ok 0)) (proj1 (initial_gen_inv draws K 0))
              initial_draws_inv Hrun) as [_ (_ & _ & _ & Ha)].
  split; [exact Ha|].
  pose proof (run_loop_balanced capacity draws fuel _ w Hrun) as Hb.
  unfold settled, in_flight, arrivals in *. simpl in Hb. lia.
Qed.

Section Ample.
Hypothesis ample : (Z.of_nat K <= capacity)%Z.

Lemma uncontended_step (w : qworld) :
  gen_inv draws K w -> draws_inv K w -> uncontended w ->
  uncontended (result_world (step capacity draws w)).
Proof.
  intros (Hu & Htok & Hall) (D1 & D2 & D3 & D4) (U1 & U2 & U3 & U4 & U5).
  destruct (step_cases capacity draws w)
    as [[_ ->] | (e & rest & Hpop & Hcase)]; [repeat split; assumption|].
  rewrite List.Forall_forall in Hall, U4.
  assert (He : gen_entry_ok draws K (draw_idx w) e)
    by (apply Hall, (pop_min_In _ _ _ Hpop); left; reflexivity).
  assert (Ue : unc_entry_ok e)
    by (apply U4, (pop_min_In _ _ _ Hpop); left; reflexivity).
  assert (Urest : Forall unc_entry_ok rest)
    by (apply List.Forall_forall; intros x Hx;
        apply U4, (pop_min_In _ _ _ Hpop); right; exact Hx).
  pose proof (pop_min_total is_init_request _ _ _ Hpop) as Pinit.
  assert (Hadv : uncontended (advance e rest w))
    by (unfold uncontended; simpl; repeat split; try assumption; lia).
  destruct Hcase as [[_ ->] | [[_ ->] | (Hnu & Hnf & ->)]];
    [exact Hadv | exact Hadv |].
  simpl. unfold unc_entry_ok in Ue.
  destruct (e_event e) eqn:Ev; try contradiction; simpl in Pinit.
  - (* the generator starts *)
    unfold gen_entry_ok in He. rewrite Ev in He. destruct He as [Hd0 _].
    simpl. rewrite generator_loop_nonneg by assumption.
    unfold uncontended; simpl. rewrite total_app; simpl.
    repeat split; try assumption; [|lia].
    apply Forall_app. split; [exact Urest | repeat constructor].
  - (* an arrival: the line is empty, so it is admitted *)
    cbn [handle]. unfold on_arrival.
    change (put_queue (advance e rest w)) with (put_queue w). rewrite U1.
    change (Nat.leb MAX_QUEUE_SIZE (length [])) with false. cbv iota.
    rewrite generator_loop_nonneg by assumption.
    unfold uncontended; simpl. rewrite <- app_assoc, total_app; simpl.
    repeat split; try assumption; [|lia].
    apply Forall_app. split; [exact Urest | repeat constructor].
  - (* a process starts: a server is free *)
    simpl. unfold on_init_request, trigger_put. simpl. rewrite U1. simpl.
    assert (Hfree : (Z.of_nat (length (users w)) <? capacity)%Z = true)
      by (apply Z.ltb_lt; lia).
    rewrite Hfree. unfold uncontended; simpl.
    rewrite total_app, length_app; simpl.
    repeat split; try assumption; [|lia].
    apply Forall_app. split; [exact Urest|].
    constructor; [|constructor]. unfold unc_entry_ok; simpl. qtime. lra.
  - (* the grant: the wait is zero *)
    cbn [handle]. unfold on_granted.
    change (now (advance e rest w)) with (e_time e).
    destruct (t_ltb t_one (t_sub (e_time e) (req_arrival r))) eqn:Hwait.
    + apply t_ltb_lt in Hwait. qtime. lra.
    + unfold uncontended; simpl. rewrite total_app; simpl.
      repeat split; try assumption; [|lia].
      apply Forall_app. split; [exact Urest|].
      constructor; [|constructor]. unfold unc_entry_ok; simpl. qtime. lra.
  - (* the service is over *)
    simpl. unfold on_service_done, release. unfold uncontended; simpl.
    rewrite <- app_assoc, total_app; simpl.
    pose proof (remove_first_length (req_id r) (users w)) as Hrm.
    repeat split; try assumption; [| |lia].
    + apply Forall_app. split; [exact U3|].
      constructor; [|constructor]. qtime. lra.
    + apply Forall_app. split; [exact Urest | repeat constructor].
  - simpl. unfold trigger_put. simpl. rewrite U1. exact Hadv.
  - exact Hadv.
Qed.

Lemma run_loop_uncontended (fuel : nat) (w w' : qworld) :
  timely w -> gen_inv draws K w -> draws_inv K w -> uncontended w ->
  run_loop capacity draws fuel w = Done w' ->
  uncontended w'.
Proof.
  revert w. induction fuel as [|fuel IH]; intros w Hw Hg Hd Hc; simpl;
    [discriminate|].
  pose proof (step_timely capacity draws w Hw) as Ht.
  pose proof (step_progress capacity draws K draws_nonneg horizon_reached
                w Hw Hg) as Hp.
  pose proof (draws_inv_step w Hw Hg Hd) as Hs.
  pose proof (uncontended_step w Hg Hd Hc) as Hn.
  destruct (step capacity draws w) as [w1|w1|e w1]; simpl in Hs, Hn.
  - apply IH; tauto.
  - intros [= <-]. exact Hn.
  - discriminate.
Qed.

Lemma run_uncontended (fuel : nat) (w : qworld) :
  run_loop capacity draws fuel (initial_world [] 0) = Done w ->
  dropped w = 0%nat /\
  Forall (fun rt => rt == PROCESSING_TIME) (response_times w).
Proof.
  intros Hrun.
  assert (H0 : uncontended (initial_world [] 0)).
  { unfold uncontended; simpl. repeat split; try constructor.
    - exact I.
    - constructor; [exact I | constructor]. }
  destruct (run_loop_uncontended fuel _ w
              (proj1 (initial_world_ok 0)) (proj1 (initial_gen_inv draws K 0))
              initial_draws_inv H0 Hrun) as (_ & U2 & U3 & _).
  split; assumption.
Qed.

End Ample.

End Bounded.

(** ** Calls of [run_simulation] with bounded arrivals *)

Lemma mean_of_equal (xs : list Q) (c : Q) :
  xs <> [] -> Forall (fun x => x == c) xs -> mean xs == c.
Proof.
  intros Hne Hall. unfold mean, Qsum.
  assert (Hb : Forall (fun x => c <= x /\ x <= c) xs).
  { revert Hall. apply List.Forall_impl. intros x Hx. rewrite Hx.
    split; apply Qle_refl. }
  destruct (fold_Qplus_bounds c c xs 0 Hb) as [Hlo Hhi].
  assert (Hlen : 0 < inject_Z (Z.of_nat (length xs))).
  { change 0 with (inject_Z 0). rewrite <- Zlt_Qlt.
    destruct xs; [congruence | simpl; lia]. }
  apply Qle_antisym.
  - apply Qle_shift_div_r; [exact Hlen | lra].
  - apply Qle_shift_div_l; [exact Hlen | lra].
Qed.

(** X6: when the [K]-th arrival falls at or beyond the horizon, a call
    settles at most [K] requests: the drops it returns and the response
    times it has recorded are together no more than [K]. *)
Theorem settled_requests_bounded (fuel : nat) (draws : nat -> Q)
    (g g' : globals) (n : Z) (K : nat) avg util d :
  (1 <= n)%Z -> (forall i, 0 <= draws i) ->
  SIMULATION_TIME <= arrival_at draws K ->
  run_simulation fuel draws g n = Returns (avg, util, d) g' ->
  (d + length (g_response_times g' !!! n) <= K)%nat.
Proof.
  intros Hn Hpos Hreach Hret.
  destruct (run_simulation_returns _ _ _ _ _ _ Hn Hret)
    as (w & Hrun & -> & _ & _ & [= _ _ ->]).
  apply (run_settles_at_most_K n draws K Hpos Hreach fuel w Hrun).
Qed.


(** ** The dictionaries after a call *)

(** X8: a returning call leaves under its own key the response times it
    has recorded (from which the returned average and utilization are
    computed), the returned utilization and the returned number of drops;
    the entries of the three dictionaries under every other key are
    untouched. *)
Theorem results_stored_under_own_key (fuel : nat) (draws : nat -> Q)
    (g g' : globals) (n : Z) avg util d :
  run_simulation fuel draws g n = Returns (avg, util, d) g' ->
  (exists rts, g_response_times g' !! n = Some rts /\
               avg = avg_response_time rts /\
               util = server_utilization rts n) /\
  g_utilization_rates g' !! n = Some util /\
  g_dropped_requests g' !! n = Some d /\
  forall m, m <> n ->
    g_response_times g' !! m = g_response_times g !! m /\
    g_utilization_rates g' !! m = g_utilization_rates g !! m /\
    g_dropped_requests g' !! m = g_dropped_requests g !! m.
Proof.
  intros Hret. destruct (Z_le_gt_dec n 0) as [Hn|Hn].
  { rewrite nonpositive_servers_rejected_aux in Hret by exact Hn.
    discriminate. }
  rewrite run_simulation_unfold in Hret by lia.
  destruct (run_loop n draws fuel (initial_world [] 0)) as [|w|e w];
    try discriminate.
  injection Hret as <- <- <- <-.
  cbn [g_response_times g_dropped_requests g_utilization_rates].
  rewrite !lookup_insert_eq. split; [|split; [|split]]; try reflexivity.
  - exists (response_times w). auto.
  - intros m Hm. rewrite !lookup_insert_ne by congruence. auto.
Qed.

(** X9: results do not accumulate.  Calling [run_simulation] again with
    the same server count and the same random stream, on the dictionaries
    the first call has left, returns the same triple and leaves the
    dictionaries as they are: the first two statements of the function
    discard what the key held. *)
Theorem rerun_overwrites (fuel : nat) (draws : nat -> Q) (g g' : globals)
    (n : Z) (r : average * Q * nat) :
  run_simulation fuel draws g n = Returns r g' ->
  run_simulation fuel draws g' n = Returns r g'.
Proof.
  intros Hret. destruct (Z_le_gt_dec n 0) as [Hn|Hn].
  { rewrite nonpositive_servers_rejected_aux in Hret by exact Hn.
    discriminate. }
  rewrite run_simulation_unfold in Hret |- * by lia.
  destruct (run_loop n draws fuel (initial_world [] 0)) as [|w|e w];
    try discriminate.
  injection Hret as <- <-.
  cbn [g_response_times g_dropped_requests g_utilization_rates].
  rewrite !insert_insert_eq. reflexivity.
Qed.

(** ** The run does not fail *)

Section NoFailure.
Context {T : Type} `{TimeOps T}.
Variable capacity : Z.
Variable draws : nat -> T.
Hypothesis draws_ok : forall i, t_ltb (draws i) t_zero = false.

Abbreviation world := (world T).
Abbreviation entry := (entry T).
Abbreviation event := (event T).

Lemma generator_loop_ok (w : world) :
  generator_loop draws w
  = schedule NORMAL (draws (draw_idx w)) ArrivalTimeout
      (set_draw_idx w (S (draw_idx w))).
Proof. unfold generator_loop. rewrite draws_ok. reflexivity. Qed.

Lemma handle_no_failure (ev : event) (w : world) :
  ev <> GeneratorFailed ->
  exists l, queue (handle capacity draws ev w) = queue w ++ l /\
            Forall (fun e : entry => e_event e <> GeneratorFailed) l.
Proof.
  intros Hev.
  destruct ev; cbn [handle];
    unfold on_arrival, on_init_request, trigger_put,
           on_granted, on_service_done, release;
    rewrite ?generator_loop_ok; unfold schedule; cbn;
    repeat match goal with
           | |- context [if ?c then _ else _] => destruct c; cbn
           | |- context [match ?c with _ => _ end] => destruct c; cbn
           end;
    rewrite <- ?app_assoc;
    solve [eexists; split; [reflexivity |
                            repeat constructor; cbn; discriminate]
          | exists []; split; [symmetry; apply app_nil_r | constructor]].
Qed.

Lemma step_no_failure (w : world) :
  (exists u, In u (queue w) /\ e_event u = UntilEvent) ->
  Forall (fun e : entry => e_event e <> GeneratorFailed) (queue w) ->
  match step capacity draws w with
  | Continue w' =>
      (exists u, In u (queue w') /\ e_event u = UntilEvent) /\
      Forall (fun e : entry => e_event e <> GeneratorFailed) (queue w')
  | Stopped _ => True
  | Raised _ _ => False
  end.
Proof.
  intros (u & Hu & Eu) Hall.
  destruct (step_cases capacity draws w)
    as [[Hq _] | (e & rest & Hpop & Hcase)].
  { rewrite Hq in Hu. destruct Hu. }
  rewrite List.Forall_forall in Hall.
  assert (He : e_event e <> GeneratorFailed)
    by (apply Hall, (pop_min_In _ _ _ Hpop); left; reflexivity).
  destruct Hcase as [[_ ->] | [[Ev _] | (Hnu & _ & ->)]];
    [exact I | contradiction |].
  destruct (handle_no_failure (e_event e) (advance e rest w) He)
    as (l & -> & Hl).
  cbn [advance queue]. split.
  - exists u. split; [|exact Eu]. apply in_or_app. left.
    apply (pop_min_In _ _ _ Hpop) in Hu. destruct Hu as [-> | Hu];
      [contradiction | exact Hu].
  - apply Forall_app. split; [|exact Hl].
    apply List.Forall_forall. intros x Hx.
    apply Hall, (pop_min_In _ _ _ Hpop). right. exact Hx.
Qed.

Lemma run_loop_no_failure (fuel : nat) (w : world) :
  (exists u, In u (queue w) /\ e_event u = UntilEvent) ->
  Forall (fun e : entry => e_event e <> GeneratorFailed) (queue w) ->
  forall e w', run_loop capacity draws fuel w <> Failed e w'.
Proof.
  revert w. induction fuel as [|fuel IH]; intros w Hu Hall e w'; simpl;
    [discriminate|].
  pose proof (step_no_failure w Hu Hall) as Hs.
  destruct (step capacity draws w) as [w1|w1|x w1].
  - destruct Hs as [Hu1 Hall1]. apply IH; assumption.
  - discriminate.
  - contradiction.
Qed.

Lemma initial_run_no_failure (fuel : nat) (rts : list T) (d : nat) e w :
  run_loop capacity draws fuel (initial_world rts d) <> Failed e w.
Proof.
  apply run_loop_no_failure.
  - eexists. split; [right; left; reflexivity | reflexivity].
  - repeat constructor; cbn; discriminate.
Qed.

End NoFailure.

(** X10: the event loop never raises when no random gap tests negative, in
    any arithmetic on time (binary64 included): the generator's [Timeout]
    is the only statement of a process that can fail, and the heap is never
    found empty before the until event.  Hence a call with at least one
    server and non-negative gaps never raises. *)
Theorem run_never_raises :
  (forall (T : Type) (ops : TimeOps T) (capacity : Z) (draws : nat -> T)
          (fuel : nat) (rts : list T) (d : nat),
     (forall i, t_ltb (draws i) t_zero = false) ->
     forall e w,
       run_loop capacity draws fuel (initial_world rts d) <> Failed e w) /\
  (forall (fuel : nat) (draws : nat -> Q) (g : globals) (n : Z),
     (1 <= n)%Z -> (forall i, 0 <= draws i) ->
     forall e g', run_simulation fuel draws g n <> Raises e g').
Proof.
  split.
  - intros T ops capacity draws fuel rts d Hok e w.
    apply initial_run_no_failure. exact Hok.
  - intros fuel draws g n Hn Hpos e g'.
    rewrite run_simulation_unfold by exact Hn.
    assert (Hok : forall i, t_ltb (draws i) t_zero = false).
    { intros i. cbn [t_ltb t_zero QTime].
      apply negb_false_iff, Qle_bool_iff, Hpos. }
    pose proof (initial_run_no_failure n draws Hok fuel [] 0%nat) as Hnf.
    destruct (run_loop n draws fuel (initial_world [] 0)) as [|w|x w];
      try discriminate.
    exfalso. exact (Hnf x w eq_refl).
Qed.

(** ** The verdicts of the script *)

(** X11: the two comparisons of the script with the 500 ms target always
    agree on a returned average; a run that served nothing is reported as
    above the target; and with at least as many servers as arrivals before
    the horizon, a run that served something meets it. *)
Theorem script_verdicts (fuel : nat) (draws : nat -> Q) (g g' : globals)
    (n : Z) avg util d :
  run_simulation fuel draws g n = Returns (avg, util, d) g' ->
  above_target avg = negb (meets_target avg) /\
  (g_response_times g' !!! n = [] ->
   above_target avg = true /\ meets_target avg = false) /\
  (forall K, (Z.of_nat K <= n)%Z -> (forall i, 0 <= draws i) ->
             SIMULATION_TIME <= arrival_at draws K ->
             g_response_times g' !!! n <> [] ->
             meets_target avg = true /\ above_target avg = false).
Proof.
  intros Hret. destruct (Z_le_gt_dec n 0) as [Hn|Hn].
  { rewrite nonpositive_servers_rejected_aux in Hret by exact Hn.
    discriminate. }
  assert (Hn' : (1 <= n)%Z) by lia.
  destruct (run_simulation_returns _ _ _ _ _ _ Hn' Hret)
    as (w & Hrun & -> & _ & _ & [= -> _ _]).
  split; [|split].
  - destruct (avg_response_time (response_times w)); reflexivity.
  - intros ->. split; reflexivity.
  - intros K Hample Hpos Hreach Hne.
    destruct (run_uncontended n draws K Hpos Hreach Hample fuel w Hrun)
      as [_ Hall].
    pose proof (mean_of_equal (response_times w) PROCESSING_TIME Hne Hall)
      as Hmean.
    destruct (response_times w) as [|x xs] eqn:E; [congruence|].
    cbn [avg_response_time above_target meets_target].
    assert (Hle : Qle_bool (mean (x :: xs)) (1 # 2) = true).
    { apply Qle_bool_iff. rewrite Hmean. cbn [PROCESSING_TIME QTime]. lra. }
    rewrite Hle. split; reflexivity.
Qed.

(** ** First come, first served *)

Section ServiceOrder.
Variable capacity : Z.
Variable draws : nat -> Q.

Abbreviation qworld := (world Q).
Abbreviation qentry := (entry Q).

Lemma remove_first_Forall (P : nat -> Prop) x (l l2 : list nat) :
  Forall P (l ++ l2) -> Forall P (remove_first x l ++ l2).
Proof.
  induction l as [|y l IH]; simpl; [auto|].
  intros Hall. apply Forall_cons_iff in Hall. destruct Hall as [Hy Hall].
  destruct (Nat.eqb x y); [exact Hall|]. simpl. constructor; auto.
Qed.

Lemma remove_first_sorted x (l l2 : list nat) :
  StronglySorted lt (l ++ l2) -> StronglySorted lt (remove_first x l ++ l2).
Proof.
  induction l as [|y l IH]; simpl; [auto|].
  intros Hs. apply StronglySorted_inv in Hs. destruct Hs as [Hs Hy].
  destruct (Nat.eqb x y); [exact Hs|]. simpl. constructor; [auto|].
  apply remove_first_Forall. exact Hy.
Qed.

Lemma sorted_snoc (l : list nat) x :
  StronglySorted lt l -> Forall (fun i => (i < x)%nat) l ->
  StronglySorted lt (l ++ [x]).
Proof.
  induction 1 as [|a l Hs IH Ha]; simpl; intros Hall.
  - constructor; constructor.
  - apply Forall_cons_iff in Hall. destruct Hall as [Hax Hall].
    constructor; [auto|].
    apply Forall_app. split; [exact Ha | constructor; [exact Hax | constructor]].
Qed.

Lemma no_init_request_member (q : list qentry) e rid :
  total is_init_request q = 0%nat -> In e q -> e_event e <> InitRequest rid.
Proof.
  induction q as [|x q IH]; simpl; [tauto|].
  intros Hz [<- | Hin] Ev.
  - rewrite Ev in Hz. simpl in Hz. lia.
  - apply (IH ltac:(lia) Hin Ev).
Qed.

Lemma trigger_put_order (w : qworld) :
  in_service_order (trigger_put capacity w) = in_service_order w /\
  request_id (trigger_put capacity w) = request_id w /\
  exists l, queue (trigger_put capacity w) = queue w ++ l /\
            total is_init_request l = 0%nat /\
            total is_init_generator l = 0%nat.
Proof.
  unfold trigger_put, in_service_order.
  destruct (put_queue w) as [|r rest] eqn:E.
  - rewrite E. repeat split. exists []. rewrite app_nil_r. auto.
  - destruct (Z.of_nat (length (users w)) <? capacity)%Z.
    + simpl. rewrite <- app_assoc. repeat split.
      eexists. split; [reflexivity|]. auto.
    + rewrite E. repeat split. exists []. rewrite app_nil_r. auto.
Qed.

(** A process that waits to start is started before the next arrival. *)
Lemma arrival_no_pending_init (w : qworld) e rest :
  line_inv w -> pop_min (queue w) = Some (e, rest) ->
  e_event e = ArrivalTimeout -> total is_init_request rest = 0%nat.
Proof.
  intros (_ & _ & Hc & _) Hpop Ev.
  destruct (total is_init_request rest) as [|n] eqn:En; [reflexivity|].
  exfalso.
  assert (Hex : exists i, In i rest /\ is_init_request (e_event i) = 1%nat).
  { clear -En. induction rest as [|x rest IH]; simpl in En; [discriminate|].
    destruct (is_init_request (e_event x)) as [|m] eqn:Ex.
    - destruct (IH En) as (i & Hi & Ii). exists i. split; [right|]; assumption.
    - exists x. split; [left; reflexivity|].
      destruct (e_event x); simpl in *; congruence. }
  destruct Hex as (i & Hi & Ii).
  apply (pop_min_least _ _ _ Hpop i Hi).
  apply Hc; try assumption; apply (pop_min_In _ _ _ Hpop);
    [right; exact Hi | left; reflexivity].
Qed.

Lemma order_inv_advance (w : qworld) e rest :
  order_inv w -> pop_min (queue w) = Some (e, rest) ->
  order_inv (advance e rest w).
Proof.
  intros (O1 & O2 & O3 & O4 & O5) Hpop.
  pose proof (pop_min_total is_init_request _ _ _ Hpop) as Pinit.
  pose proof (pop_min_total is_init_generator _ _ _ Hpop) as Pgen.
  unfold order_inv, in_service_order in *.
  cbn [advance queue users put_queue request_id].
  split; [lia|]. split; [intros Hg; apply O2; lia|].
  split; [exact O3|]. split; [exact O4|].
  intros x rid Hx Ex.
  apply (O5 x rid); [apply (pop_min_In _ _ _ Hpop); right|]; assumption.
Qed.

Lemma order_inv_step (w : qworld) :
  line_inv w -> order_inv w ->
  order_inv (result_world (step capacity draws w)).
Proof.
  intros Hline Hw.
  destruct (step_cases capacity draws w)
    as [[_ ->] | (e & rest & Hpop & Hcase)]; [exact Hw|].
  pose proof (order_inv_advance w e rest Hw Hpop) as Hadv.
  destruct Hcase as [[_ ->] | [[_ ->] | (Hnu & Hnf & ->)]];
    [exact Hadv | exact Hadv |].
  pose proof (arrival_no_pending_init w e rest Hline Hpop) as Harr.
  destruct Hline as (Ha & He & _ & _).
  destruct Hw as (O1 & O2 & O3 & O4 & O5).
  pose proof (pop_min_total is_gen_token _ _ _ Hpop) as Ptok.
  pose proof (pop_min_total is_init_request _ _ _ Hpop) as Pinit.
  pose proof (pop_min_total is_init_generator _ _ _ Hpop) as Pgen.
  pose proof (init_generator_le_token rest) as [Lg _].
  pose proof (init_generator_le_token (queue w)) as [Lq _].
  assert (Hrest : forall x rid, In x rest -> e_event x = InitRequest rid ->
            (rid < request_id w)%nat /\
            Forall (fun i => (i < rid)%nat) (in_service_order w)).
  { intros x rid Hx Ex. apply (O5 x rid); [|exact Ex].
    apply (pop_min_In _ _ _ Hpop). right. exact Hx. }
  cbn [result_world]. destruct (e_event e) eqn:Ev; try contradiction.
  - (* the generator starts *)
    cbn [is_gen_token is_init_request is_init_generator] in *.
    destruct (O2 ltac:(lia)) as [Hu Hp].
    assert (Hz : total is_init_request rest = 0%nat)
      by (specialize (He ltac:(lia)); lia).
    cbn [handle]. unfold generator_loop.
    match goal with |- context [if ?c then _ else _] => destruct c end;
      unfold order_inv, in_service_order; cbn; rewrite Hu, Hp, !total_app;
      cbn;
      (split; [lia|]; split; [auto|]; split; [constructor|];
       split; [constructor|]);
      intros x rid Hx Ex; exfalso;
      (apply in_app_or in Hx; destruct Hx as [Hx | [<- | []]];
       [exact (no_init_request_member rest x rid Hz Hx Ex) | discriminate]).
  - (* an arrival *)
    cbn [is_gen_token is_init_request is_init_generator] in *.
    specialize (Harr eq_refl).
    cbn [handle]. unfold on_arrival.
    change (put_queue (advance e rest w)) with (put_queue w).
    destruct (Nat.leb MAX_QUEUE_SIZE (length (put_queue w))).
    + unfold generator_loop.
      match goal with |- context [if ?c then _ else _] => destruct c end;
        unfold order_inv, in_service_order in *; cbn; rewrite !total_app;
        cbn;
        (split; [lia|]; split; [intros; lia|]; split; [exact O3|];
         split; [exact O4|]);
        intros x rid Hx Ex; exfalso;
        (apply in_app_or in Hx; destruct Hx as [Hx | [<- | []]];
         [exact (no_init_request_member rest x rid Harr Hx Ex)
         | discriminate]).
    + unfold generator_loop.
      match goal with |- context [if ?c then _ else _] => destruct c end;
        unfold order_inv, in_service_order in *; cbn;
        rewrite <- ?app_assoc, !total_app; cbn;
        (split; [lia|]; split; [intros; lia|]; split; [exact O3|];
         split; [revert O4; apply List.Forall_impl; intros; lia|]);
        intros x rid Hx Ex;
        (apply in_app_or in Hx; destruct Hx as [Hx | [<- | [<- | []]]];
         [exfalso; exact (no_init_request_member rest x rid Harr Hx Ex)
         | injection Ex as <-; split; [lia | exact O4]
         | discriminate]).
  - (* a process starts and joins the waiting line *)
    cbn [is_gen_token is_init_request is_init_generator] in *.
    destruct (O5 e rid) as [Hrid Hbelow];
      [apply (pop_min_In _ _ _ Hpop); left; reflexivity | exact Ev |].
    cbn [handle]. unfold on_init_request.
    match goal with |- context [trigger_put capacity ?x] =>
      destruct (trigger_put_order x) as (Hord & Hid & l & Hq & Hl1 & Hl2);
      unfold order_inv; rewrite Hord, Hid, Hq
    end.
    unfold in_service_order in *. cbn. rewrite !total_app, map_app, app_assoc.
    cbn. split; [lia|]. split; [intros; exfalso; lia|].
    split; [apply sorted_snoc; assumption|].
    split; [apply Forall_app; split; [exact O4 | repeat constructor; exact Hrid]|].
    intros x rid' Hx Ex. exfalso.
    apply (no_init_request_member (rest ++ l) x rid'); try assumption.
    rewrite total_app. lia.
  - (* the grant *)
    cbn [is_gen_token is_init_request is_init_generator] in *.
    cbn [handle]. unfold on_granted.
    match goal with |- context [if ?c then _ else _] => destruct c end;
      unfold release, order_inv, in_service_order in *; cbn;
      rewrite <- ?app_assoc, !total_app; cbn.
    + split; [lia|].
      split; [intros Hg; destruct (O2 ltac:(lia)) as [-> ->]; auto|].
      split; [apply remove_first_sorted; exact O3|].
      split; [apply remove_first_Forall; exact O4|].
      intros x rid Hx Ex.
      apply in_app_or in Hx. destruct Hx as [Hx | [<- | [<- | []]]];
        try discriminate.
      destruct (Hrest x rid Hx Ex) as [H1 H2].
      split; [exact H1 | apply remove_first_Forall; exact H2].
    + split; [lia|]. split; [intros Hg; apply O2; lia|].
      split; [exact O3|]. split; [exact O4|].
      intros x rid Hx Ex.
      apply in_app_or in Hx. destruct Hx as [Hx | [<- | []]];
        try discriminate.
      exact (Hrest x rid Hx Ex).
  - (* the service is over *)
    cbn [is_gen_token is_init_request is_init_generator] in *.
    cbn [handle]. unfold on_service_done, release, order_inv,
      in_service_order in *; cbn.
    rewrite <- ?app_assoc, !total_app; cbn.
    split; [lia|].
    split; [intros Hg; destruct (O2 ltac:(lia)) as [-> ->]; auto|].
    split; [apply remove_first_sorted; exact O3|].
    split; [apply remove_first_Forall; exact O4|].
    intros x rid Hx Ex.
    apply in_app_or in Hx. destruct Hx as [Hx | [<- | [<- | []]]];
      try discriminate.
    destruct (Hrest x rid Hx Ex) as [H1 H2].
    split; [exact H1 | apply remove_first_Forall; exact H2].
  - (* a slot was released *)
    cbn [is_gen_token is_init_request is_init_generator] in *.
    cbn [handle].
    destruct (trigger_put_order (advance e rest w))
      as (Hord & Hid & l & Hq & Hl1 & Hl2).
    unfold order_inv. rewrite Hord, Hid, Hq.
    unfold in_service_order in *. cbn. rewrite !total_app.
    split; [lia|].
    split; [intros Hg; destruct (O2 ltac:(lia)) as [Hu Hp];
            unfold trigger_put; cbn; rewrite Hp; cbn; auto|].
    split; [exact O3|]. split; [exact O4|].
    intros x rid Hx Ex.
    apply in_app_or in Hx. destruct Hx as [Hx | Hx];
      [exact (Hrest x rid Hx Ex)|].
    exfalso. exact (no_init_request_member l x rid Hl1 Hx Ex).
  - exact Hadv.
Qed.

Lemma order_inv_run_prefix (k : nat) (w : qworld) :
  line_inv w -> order_inv w -> order_inv (run_prefix capacity draws k w).
Proof.
  revert w. induction k as [|k IH]; intros w Hl Hw; simpl; [exact Hw|].
  pose proof (line_inv_step capacity draws w Hl) as Hs.
  pose proof (order_inv_step w Hl Hw) as Ho.
  destruct (step capacity draws w); simpl in Hs, Ho; auto.
Qed.

(** X12: first come, first served.  At any point of a run, the requests
    that hold a server, in the order they were granted it, followed by the
    waiting line, have strictly increasing ids, all below the generator's
    counter: ids are never reused, and no request is granted a server
    before one that started earlier. *)
Theorem first_come_first_served (k : nat) :
  let w := run_prefix capacity draws k (initial_world [] 0) in
  StronglySorted lt (users w ++ map req_id (put_queue w)) /\
  Forall (fun i => (i < request_id w)%nat)
         (users w ++ map req_id (put_queue w)).
Proof.
  assert (Hl : line_inv (initial_world [] 0)).
  { unfold line_inv; simpl. repeat split.
    - lia.
    - intros i a [<- | [<- | []]] _ Ii; discriminate.
    - unfold MAX_QUEUE_SIZE. lia. }
  assert (Ho : order_inv (initial_world [] 0)).
  { unfold order_inv, in_service_order; simpl.
    split; [lia|]. split; [auto|]. split; [constructor|].
    split; [constructor|].
    intros x rid [<- | [<- | []]]; discriminate. }
  destruct (order_inv_run_prefix k _ Hl Ho) as (_ & _ & Hs & Hb & _).
  split; assumption.
Qed.

End ServiceOrder.

(** ** The times of the arrivals *)

Section ArrivalTimes.
Variable capacity : Z.
Variable draws : nat -> Q.
Variable K : nat.
Hypothesis draws_nonneg : forall i, 0 <= draws i.
Hypothesis horizon_reached : SIMULATION_TIME <= arrival_at draws K.

Abbreviation qworld := (world Q).
Abbreviation qentry := (entry Q).

Lemma step_history (w : qworld) :
  history (result_world (step capacity draws w)) = history w \/
  exists e rest, pop_min (queue w) = Some (e, rest) /\
    history (result_world (step capacity draws w))
    = (e_time e, e_event e) :: history w.
Proof.
  destruct (step_cases capacity draws w)
    as [[_ ->] | (e & rest & Hpop & Hcase)]; [left; reflexivity|].
  right. exists e, rest. split; [exact Hpop|].
  destruct Hcase as [[_ ->] | [[_ ->] | (_ & _ & ->)]]; try reflexivity.
  cbn [result_world].
  destruct (handle_account capacity draws (e_event e) (advance e rest w))
    as [_ ->].
  reflexivity.
Qed.

Lemma arrival_times_step (w : qworld) :
  gen_inv draws K w ->
  (forall t, In (t, ArrivalTimeout) (history w) ->
     exists j, (j < K)%nat /\ t == arrival_at draws j) ->
  forall t,
    In (t, ArrivalTimeout) (history (result_world (step capacity draws w))) ->
    exists j, (j < K)%nat /\ t == arrival_at draws j.
Proof.
  intros (Hu & Htok & Hall) Hhist t.
  destruct (step_history w) as [-> | (e & rest & Hpop & ->)]; [apply Hhist|].
  intros [Heq | Hin]; [|apply Hhist; exact Hin].
  injection Heq as Ht Ev.
  rewrite List.Forall_forall in Hall.
  assert (He : gen_entry_ok draws K (draw_idx w) e)
    by (apply Hall, (pop_min_In _ _ _ Hpop); left; reflexivity).
  pose proof (arrival_not_last draws K horizon_reached
                w e rest Hu Hpop Ev He) as HdK.
  unfold gen_entry_ok in He. rewrite Ev in He. destruct He as (_ & Hd & Htime).
  exists (draw_idx w - 1)%nat. split; [lia|]. rewrite <- Ht. exact Htime.
Qed.

Lemma arrival_times_run_prefix (k : nat) (w : qworld) :
  timely w -> gen_inv draws K w ->
  (forall t, In (t, ArrivalTimeout) (history w) ->
     exists j, (j < K)%nat /\ t == arrival_at draws j) ->
  forall t,
    In (t, ArrivalTimeout) (history (run_prefix capacity draws k w)) ->
    exists j, (j < K)%nat /\ t == arrival_at draws j.
Proof.
  revert w. induction k as [|k IH]; intros w Hw Hg Hhist; simpl;
    [exact Hhist|].
  pose proof (step_timely capacity draws w Hw) as Ht.
  pose proof (step_progress capacity draws K draws_nonneg horizon_reached
                w Hw Hg) as Hp.
  pose proof (arrival_times_step w Hg Hhist) as Hs.
  destruct (step capacity draws w) as [w1|w1|e w1]; simpl in Hs.
  - apply IH; tauto.
  - exact Hs.
  - exact Hs.
Qed.

(** X13: the generator's arrivals fall at the cumulative sums of the random
    gaps.  When the [K]-th sum is at or beyond the horizon, every arrival a
    run has handled took place at [arrival_at draws j] for some [j < K]. *)
Theorem arrivals_at_cumulative_gaps (k : nat) (t : Q) :
  In (t, ArrivalTimeout)
     (history (run_prefix capacity draws k (initial_world [] 0))) ->
  exists j, (j < K)%nat /\ t == arrival_at draws j.
Proof.
  apply arrival_times_run_prefix.
  - apply initial_world_ok.
  - apply (initial_gen_inv draws K 0).
  - intros t' [].
Qed.

End ArrivalTimes.

(** ** Concrete runs for the further properties *)

Lemma early_arrival_nonneg (i : nat) : 0 <= early_arrival i.
Proof. destruct i; simpl; lra. Qed.

Lemma early_arrival_reaches : SIMULATION_TIME <= arrival_at early_arrival 1.
Proof. vm_compute. discriminate. Qed.

Lemma servers_never_oversubscribed_witness :
  (0 <= 1)%Z /\
  let w := run_prefix 1 burst_then_steady 20 (initial_world [] 0) in
  Permutation (users w) (holder_ids (queue w)) /\
  (Z.of_nat (length (users w)) <= 1)%Z.
Proof.
  split; [lia|].
  apply (servers_never_oversubscribed 1 burst_then_steady 20). lia.
Defined.

Lemma run_stops_at_horizon_witness :
  exists w, env_run 1 early_arrival 100 (start_world [] 0) = Done w /\
            now w == 10 /\
            exists h, history w = (now w, UntilEvent) :: h.
Proof.
  eexists. split; [lazy; reflexivity|].
  edestruct (run_stops_at_horizon 1 early_arrival 100 [] 0) as [Hn Hh];
    [lazy; reflexivity|].
  split; [rewrite Hn; vm_compute; reflexivity | exact Hh].
Defined.


Lemma settled_requests_bounded_witness :
  exists avg util d g',
    run_simulation 11 early_arrival empty_globals 1
    = Returns (avg, util, d) g' /\
    (d + length (g_response_times g' !!! 1%Z) <= 1)%nat.
Proof.
  eassert (Hrun : run_simulation 11 early_arrival empty_globals 1
                  = Returns (_, _, _) _) by (vm_compute; reflexivity).
  do 4 eexists. split; [exact Hrun|].
  exact (settled_requests_bounded 11 early_arrival empty_globals _ 1 1 _ _ _
           ltac:(lia) early_arrival_nonneg early_arrival_reaches Hrun).
Defined.


Lemma results_stored_under_own_key_witness :
  exists avg util d g',
    run_simulation 11 early_arrival
      (Globals (<[2%Z := [3 # 1]]> ∅) ∅ (<[2%Z := 7%nat]> ∅)) 1
    = Returns (avg, util, d) g' /\
    g_dropped_requests g' !! 1%Z = Some d /\
    g_response_times g' !! 2%Z = Some [3 # 1] /\
    g_dropped_requests g' !! 2%Z = Some 7%nat.
Proof.
  eassert (Hrun : run_simulation 11 early_arrival
                    (Globals (<[2%Z := [3 # 1]]> ∅) ∅ (<[2%Z := 7%nat]> ∅)) 1
                  = Returns (_, _, _) _) by (vm_compute; reflexivity).
  destruct (results_stored_under_own_key 11 early_arrival _ _ 1 _ _ _ Hrun)
    as (_ & _ & Hd & Hframe).
  destruct (Hframe 2%Z ltac:(lia)) as (Hr & _ & Hdr).
  do 4 eexists. split; [exact Hrun|]. split; [exact Hd|].
  split; [rewrite Hr | rewrite Hdr]; vm_compute; reflexivity.
Defined.

Lemma rerun_overwrites_witness :
  exists r g',
    run_simulation 11 early_arrival empty_globals 1 = Returns r g' /\
    run_simulation 11 early_arrival g' 1 = Returns r g'.
Proof.
  eassert (Hrun : run_simulation 11 early_arrival empty_globals 1
                  = Returns _ _) by (vm_compute; reflexivity).
  do 2 eexists. split; [exact Hrun|].
  exact (rerun_overwrites 11 early_arrival empty_globals _ 1 _ Hrun).
Defined.

Lemma run_never_raises_witness :
  (1 <= 1)%Z /\ (forall i, 0 <= early_arrival i) /\
  forall e g', run_simulation 11 early_arrival empty_globals 1 <> Raises e g'.
Proof.
  split; [lia|]. split; [exact early_arrival_nonneg|].
  exact (proj2 run_never_raises 11%nat early_arrival empty_globals 1%Z
           ltac:(lia) early_arrival_nonneg).
Defined.

Lemma script_verdicts_witness :
  exists avg util d g',
    run_simulation 11 early_arrival empty_globals 1
    = Returns (avg, util, d) g' /\
    meets_target avg = true /\ above_target avg = false.
Proof.
  eassert (Hrun : run_simulation 11 early_arrival empty_globals 1
                  = Returns (_, _, _) _) by (vm_compute; reflexivity).
  destruct (script_verdicts 11 early_arrival empty_globals _ 1 _ _ _ Hrun)
    as (_ & _ & Hample).
  do 4 eexists. split; [exact Hrun|].
  apply (Hample 1%nat); [lia | exact early_arrival_nonneg
                        | exact early_arrival_reaches
                        | vm_compute; discriminate].
Defined.

Lemma first_arrival_handled :
  In (1, ArrivalTimeout)
     (history (run_prefix 1 early_arrival 2 (initial_world [] 0))).
Proof. lazy. left. reflexivity. Qed.

Lemma arrivals_at_cumulative_gaps_witness :
  (forall i, 0 <= early_arrival i) /\
  SIMULATION_TIME <= arrival_at early_arrival 1 /\
  exists j, (j < 1)%nat /\ 1 == arrival_at early_arrival j.
Proof.
  split; [exact early_arrival_nonneg|]. split; [exact early_arrival_reaches|].
  exact (arrivals_at_cumulative_gaps 1 early_arrival 1 early_arrival_nonneg
           early_arrival_reaches 2 1 first_arrival_handled).
Defined.
